(** * ThirdEye front end: the session pipeline and the image gallery

    A shallow embedding of [src/App.tsx] (component [AppContent]): the
    image de-duplication [uniqueImages], the path normalisation
    [getImagePath], the carousel buttons, and the two recording handlers
    [startListening] and [stopListening] together with [speakResponse].

    Conventions.
    - React state and refs of [AppContent] are the fields of [AppState].
    - A handler is a computation in the monad [M]: it threads the
      component state and the trace of observable effects (network calls,
      toasts, device operations) and may throw, as the [async] functions of
      the source do.  [try_catch] and [try_finally] are the source's
      [try]/[catch]/[finally].
    - The collaborators (microphone, speech-to-text, backend, text-to-speech)
      are the fields of [World]: what each of them answers when called.
    - A handler runs to completion: the state updates it issues are read
      after it returns (React batches them), and [console] output is not
      part of the trace. *)

From stdpp Require Import base decidable option list gmap strings pretty.
From Stdlib Require Import ZArith Lia.

Local Open Scope string_scope.
Local Open Scope list_scope.

(** ** Data model *)

(** [interface ImageMetadata]. *)
Record ImageMetadata := mkImageMetadata {
  id : Z;
  shot_at_when : string;
  shot_at_where : string;
  people_involved : list string;
  image_description : string;
  image_path : string
}.

(** An image record with the given [id] and [image_path] and empty
    descriptive fields, for concrete examples. *)
Definition photo (i : Z) (p : string) : ImageMetadata :=
  mkImageMetadata i "" "" [] "" p.

(** ** The gallery: de-duplication *)

(** The callback of [images.filter] in [uniqueImages], with the [Set]
    [seen] it mutates passed along: an image whose path is in [seen] is
    skipped, any other is kept and its path added. *)
Fixpoint filter_seen (seen : gset string) (imgs : list ImageMetadata)
  : list ImageMetadata :=
  match imgs with
  | [] => []
  | img :: rest =>
      if decide (image_path img ∈ seen) then filter_seen seen rest
      else img :: filter_seen ({[image_path img]} ∪ seen) rest
  end.

(** [uniqueImages]: the filter started on [new Set()]. *)
Definition uniqueImages (images : list ImageMetadata) : list ImageMetadata :=
  filter_seen ∅ images.

(** The specification's wording of de-duplication, to compare
    [uniqueImages] with: the entry at position [i] is kept exactly when no
    earlier entry carries its path, and the kept entries stay in order. *)
Definition first_occurrences (imgs : list ImageMetadata) : list ImageMetadata :=
  mjoin (imap (λ i img,
    if decide (image_path img ∈ image_path <$> take i imgs) then [] else [img])
    imgs).

(** ** The gallery: path normalisation *)

Definition displayRoot : string := "/images/".

(** [getImagePath]: a path that starts with [/images/] is returned as it
    is, any other gets [/images/] prepended. *)
Definition getImagePath (imagePath : string) : string :=
  if String.prefix displayRoot imagePath then imagePath
  else displayRoot +:+ imagePath.

(** ** Component state *)

(** A value read from the parsed response body, which the source leaves
    untyped ([data] is [any]).  Of a number only its being zero is
    observed; an array holds image records. *)
Inductive JsValue :=
| JsUndefined
| JsNull
| JsBool (b : bool)
| JsNumber (n : Z)
| JsString (s : string)
| JsArray (items : list ImageMetadata)
| JsObject.

(** JavaScript truthiness, as tested by [!v] and [v && ...]. *)
Definition truthy (v : JsValue) : bool :=
  match v with
  | JsUndefined | JsNull => false
  | JsBool b => b
  | JsNumber n => negb (n =? 0)%Z
  | JsString s => negb (String.eqb s "")
  | JsArray _ | JsObject => true
  end.

(** [Array.isArray]. *)
Definition isArray (v : JsValue) : option (list ImageMetadata) :=
  match v with
  | JsArray items => Some items
  | _ => None
  end.

(** A [Blob]: its bytes and its MIME type. *)
Record Blob := mkBlob {
  blob_bytes : list Byte.byte;
  blob_type : string
}.

Definition blob_size (b : Blob) : nat := length (blob_bytes b).

(** A character of the range U+0020 to U+007E. *)
Definition isPrintable (c : Ascii.ascii) : bool :=
  let n := Ascii.N_of_ascii c in (32 <=? n)%N && (n <=? 126)%N.

(** One character in ASCII lower case. *)
Definition asciiLower (c : Ascii.ascii) : Ascii.ascii :=
  let n := Ascii.N_of_ascii c in
  if (65 <=? n)%N && (n <=? 90)%N then Ascii.ascii_of_N (n + 32) else c.

Fixpoint allPrintable (s : string) : bool :=
  match s with
  | EmptyString => true
  | String c s' => isPrintable c && allPrintable s'
  end.

Fixpoint toLower (s : string) : string :=
  match s with
  | EmptyString => EmptyString
  | String c s' => String (asciiLower c) (toLower s')
  end.

(** The [type] a [Blob] gets from the [type] option of its constructor:
    empty when the option has a character outside U+0020 to U+007E, and
    the option in ASCII lower case otherwise. *)
Definition normalizeType (type : string) : string :=
  if allPrintable type then toLower type else "".

(** [new Blob(parts, { type })]. *)
Definition newBlob (parts : list Blob) (type : string) : Blob :=
  mkBlob (mjoin (blob_bytes <$> parts)) (normalizeType type).

Record MediaRecorder := mkMediaRecorder {
  mimeType : string
}.

(** The [useState] and [useRef] cells of [AppContent]. *)
Record AppState := mkAppState {
  isListening : bool;
  isProcessing : bool;
  transcript : string;
  response : JsValue;
  images : list ImageMetadata;
  currentImageIndex : Z;
  imageLoadError : option string;
  mediaRecorderRef : option MediaRecorder;
  chunksRef : list Blob
}.

(** The state on mount. *)
Definition initialState : AppState :=
  mkAppState false false "" (JsString "") [] 0 None None [].

Definition with_isListening (b : bool) (st : AppState) : AppState :=
  mkAppState b (isProcessing st) (transcript st) (response st) (images st)
    (currentImageIndex st) (imageLoadError st) (mediaRecorderRef st) (chunksRef st).

Definition with_isProcessing (b : bool) (st : AppState) : AppState :=
  mkAppState (isListening st) b (transcript st) (response st) (images st)
    (currentImageIndex st) (imageLoadError st) (mediaRecorderRef st) (chunksRef st).

Definition with_transcript (t : string) (st : AppState) : AppState :=
  mkAppState (isListening st) (isProcessing st) t (response st) (images st)
    (currentImageIndex st) (imageLoadError st) (mediaRecorderRef st) (chunksRef st).

Definition with_response (r : JsValue) (st : AppState) : AppState :=
  mkAppState (isListening st) (isProcessing st) (transcript st) r (images st)
    (currentImageIndex st) (imageLoadError st) (mediaRecorderRef st) (chunksRef st).

Definition with_images (l : list ImageMetadata) (st : AppState) : AppState :=
  mkAppState (isListening st) (isProcessing st) (transcript st) (response st) l
    (currentImageIndex st) (imageLoadError st) (mediaRecorderRef st) (chunksRef st).

Definition with_currentImageIndex (i : Z) (st : AppState) : AppState :=
  mkAppState (isListening st) (isProcessing st) (transcript st) (response st)
    (images st) i (imageLoadError st) (mediaRecorderRef st) (chunksRef st).

Definition with_imageLoadError (e : option string) (st : AppState) : AppState :=
  mkAppState (isListening st) (isProcessing st) (transcript st) (response st)
    (images st) (currentImageIndex st) e (mediaRecorderRef st) (chunksRef st).

Definition with_mediaRecorderRef (r : option MediaRecorder) (st : AppState)
  : AppState :=
  mkAppState (isListening st) (isProcessing st) (transcript st) (response st)
    (images st) (currentImageIndex st) (imageLoadError st) r (chunksRef st).

Definition with_chunksRef (c : list Blob) (st : AppState) : AppState :=
  mkAppState (isListening st) (isProcessing st) (transcript st) (response st)
    (images st) (currentImageIndex st) (imageLoadError st) (mediaRecorderRef st) c.

(** ** The carousel *)

(** [uniqueImages.length] of the current render. *)
Definition galleryCount (st : AppState) : Z :=
  Z.of_nat (length (uniqueImages (images st))).

(** The two arrow buttons exist only while [uniqueImages.length > 0] and
    carry [isDisabled={uniqueImages.length <= 1}]: a click reaches the
    handler only on a gallery of more than one image. *)
Definition navEnabled (st : AppState) : bool :=
  (0 <? galleryCount st)%Z && negb (galleryCount st <=? 1)%Z.

(** [onClick] of the "Next image" button; JavaScript's [%] is the
    truncated remainder [Z.rem]. *)
Definition clickNext (st : AppState) : AppState :=
  if navEnabled st
  then with_currentImageIndex
         (Z.rem (currentImageIndex st + 1) (galleryCount st)) st
  else st.

(** [onClick] of the "Previous image" button. *)
Definition clickPrevious (st : AppState) : AppState :=
  if navEnabled st
  then with_currentImageIndex
         (Z.rem (currentImageIndex st - 1 + galleryCount st) (galleryCount st)) st
  else st.

(** [nextImage] and [prevImage], which no element of the rendered tree
    refers to; they take the remainder by [images.length], the count before
    de-duplication.  [None] stands for the [NaN] of a remainder by zero. *)
Definition nextImage (st : AppState) : option AppState :=
  let n := Z.of_nat (length (images st)) in
  if (n =? 0)%Z then None
  else Some (with_currentImageIndex (Z.rem (currentImageIndex st + 1) n) st).

Definition prevImage (st : AppState) : option AppState :=
  let n := Z.of_nat (length (images st)) in
  if (n =? 0)%Z then None
  else Some (with_currentImageIndex (Z.rem (currentImageIndex st - 1 + n) n) st).

(** The invariant of the gallery view. *)
Definition gallery_inv (st : AppState) : Prop :=
  uniqueImages (images st) ≠ [] →
  (0 ≤ currentImageIndex st < galleryCount st)%Z.

(** ** Effects *)

Inductive ToastStatus := StatusError | StatusWarning.

(** What a handler does to the outside, in the order it does it. *)
Inductive Event :=
| GetUserMedia                                  (* navigator.mediaDevices.getUserMedia *)
| RecorderStart (mime : string)                 (* new MediaRecorder(..).start(100) *)
| RecorderStop                                  (* mediaRecorderRef.current.stop() *)
| TrackStop                                     (* stream.getTracks().forEach(stop) *)
| Transcribe (audio : Blob)                     (* openai.audio.transcriptions.create *)
| Fetch (query : string)                        (* fetch('/api', POST { query }) *)
| SpeechCreate (input : JsValue)                (* openai.audio.speech.create *)
| AudioPlay                                     (* audio.play() *)
| SpeechSynthesisCancel                         (* window.speechSynthesis.cancel() *)
| SpeechSynthesisSpeak (text : JsValue)         (* window.speechSynthesis.speak *)
| Toast (status : ToastStatus) (title description : string).

(** What a [throw] carries: an [Error] with its message, or another value. *)
Inductive Thrown :=
| ErrorOf (message : string)
| NotAnError.

(** [error instanceof Error ? error.message : fallback]. *)
Definition messageOr (fallback : string) (e : Thrown) : string :=
  match e with
  | ErrorOf m => m
  | NotAnError => fallback
  end.

(** The parsed body of the backend's answer: [null], or a value with the
    two fields the handler reads (a field that is missing reads as
    [JsUndefined]). *)
Inductive JsonBody :=
| BodyNull
| BodyFields (story_description image_metadata : JsValue).

Record HttpResponse := mkHttpResponse {
  status : Z;
  json : Thrown + JsonBody           (* response.json(): a parse error or the body *)
}.

(** [response.ok]: the status is in the range 200-299. *)
Definition ok (r : HttpResponse) : bool :=
  (200 <=? status r)%Z && (status r <=? 299)%Z.

(** The collaborators: what each answers when it is called. *)
Record World := mkWorld {
  getUserMedia : option Thrown;                 (* [Some e]: acquisition rejects with e *)
  mp3Supported : bool;                          (* MediaRecorder.isTypeSupported('audio/mp3') *)
  newMediaRecorder : string → option Thrown;    (* the constructor, by MIME type *)
  flushed : Blob;                               (* the data delivered on stop() *)
  transcribe : Blob → Thrown + option string;   (* the answer's [text], if any *)
  fetchApi : string → Thrown + HttpResponse;
  speechCreate : JsValue → option Thrown;       (* speech.create and response.blob() *)
  audioPlay : option Thrown;
  hasSpeechSynthesis : bool                     (* window.speechSynthesis *)
}.

(** ** The handler monad: state, trace and exceptions *)

Inductive Result (A : Type) :=
| Returned (a : A)
| Threw (e : Thrown).
Arguments Returned {A} a.
Arguments Threw {A} e.

Record Run (A : Type) := mkRun {
  result : Result A;
  ui : AppState;
  trace : list Event
}.
Arguments mkRun {A} result ui trace.
Arguments result {A} r.
Arguments ui {A} r.
Arguments trace {A} r.

Definition M (A : Type) : Type := AppState → list Event → Run A.

Definition ret {A} (a : A) : M A := λ st tr, mkRun (Returned a) st tr.

Definition bind {A B} (m : M A) (k : A → M B) : M B :=
  λ st tr,
    match m st tr with
    | mkRun (Returned a) st' tr' => k a st' tr'
    | mkRun (Threw e) st' tr' => mkRun (Threw e) st' tr'
    end.

Definition throw {A} (e : Thrown) : M A := λ st tr, mkRun (Threw e) st tr.

(** [try { m } catch (error) { h error }]. *)
Definition try_catch {A} (m : M A) (h : Thrown → M A) : M A :=
  λ st tr,
    match m st tr with
    | mkRun (Returned a) st' tr' => mkRun (Returned a) st' tr'
    | mkRun (Threw e) st' tr' => h e st' tr'
    end.

(** [try { m } finally { f }]: [f] runs on both exits and the result of
    [m] stands unless [f] throws. *)
Definition try_finally {A} (m : M A) (f : M unit) : M A :=
  λ st tr,
    match m st tr with
    | mkRun res st' tr' =>
        match f st' tr' with
        | mkRun (Returned _) st'' tr'' => mkRun res st'' tr''
        | mkRun (Threw e) st'' tr'' => mkRun (Threw e) st'' tr''
        end
    end.

Definition get : M AppState := λ st tr, mkRun (Returned st) st tr.

Definition update (f : AppState → AppState) : M unit :=
  λ st tr, mkRun (Returned tt) (f st) tr.

Definition emit (e : Event) : M unit :=
  λ st tr, mkRun (Returned tt) st (tr ++ [e]).

(** A call that rejects with [e] when the collaborator says so. *)
Definition await (o : option Thrown) : M unit :=
  match o with
  | Some e => throw e
  | None => ret tt
  end.

(** The monad operations in stdpp's notation: [x ← m; k] and [m;; k]. *)
#[global] Instance M_ret : MRet M := @ret.
#[global] Instance M_bind : MBind M := λ A B k m, bind m k.

(** [toast({ title, description, status, .. })]. *)
Definition toast (s : ToastStatus) (title description : string) : M unit :=
  emit (Toast s title description).

(** ** Speech playback *)

(** [speakResponse]. *)
Definition speakResponse (w : World) (text : JsValue) : M unit :=
  try_catch
    (emit (SpeechCreate text);;
     await (speechCreate w text);;
     emit AudioPlay;;
     await (audioPlay w))
    (λ _,
       toast StatusWarning "Speech Error"
         "Failed to generate speech. Playing in fallback voice.";;
       if hasSpeechSynthesis w
       then emit SpeechSynthesisCancel;; emit (SpeechSynthesisSpeak text)
       else mret tt).

(** A call that resolves to a value or rejects. *)
Definition awaitValue {A} (r : Thrown + A) : M A :=
  match r with
  | inl e => throw e
  | inr a => mret a
  end.

(** ** Recording *)

Definition fallbackMime : string := "audio/webm;codecs=opus".

(** [startListening]. *)
Definition startListening (w : World) : M unit :=
  try_catch
    (update (with_chunksRef []);;
     update (with_transcript "");;
     update (with_response (JsString ""));;
     update (with_isProcessing false);;
     emit GetUserMedia;;
     await (getUserMedia w);;
     let mime := if mp3Supported w then "audio/mp3" else fallbackMime in
     await (newMediaRecorder w mime);;
     update (with_mediaRecorderRef (Some (mkMediaRecorder mime)));;
     emit (RecorderStart mime);;
     update (with_isListening true))
    (λ _,
       toast StatusError "Error"
         "Failed to start recording. Please check your microphone permissions.").

(** [mediaRecorderRef.current.ondataavailable]. *)
Definition ondataavailable (e : Blob) : M unit :=
  if (0 <? blob_size e)%nat
  then update (λ st, with_chunksRef (chunksRef st ++ [e]) st)
  else mret tt.

(** The promise awaited first in [stopListening]: the recorder is
    stopped and the tracks released; the recorder then delivers what it
    still holds and fires [onstop], where [handleStop] builds the blob. *)
Definition stopRecorder (w : World) (rec : MediaRecorder) : M Blob :=
  emit RecorderStop;;
  emit TrackStop;;
  ondataavailable (flushed w);;
  st ← get;
  let type := if String.eqb (mimeType rec) "" then fallbackMime else mimeType rec in
  let blob := newBlob (chunksRef st) type in
  if (blob_size blob =? 0)%nat
  then throw (ErrorOf "No audio data recorded")
  else mret blob.

(** The inner [try] block of [stopListening]: the query is sent, the answer
    checked, and only then the results are shown and spoken.
    [speakResponse] is called without [await]: it never throws and touches
    no state, and the trace lists its events at the call, although in the
    browser those that follow its first suspension come after the end of
    [stopListening]. *)
Definition submitQuery (w : World) (text : string) : M unit :=
  emit (Fetch text);;
  resp ← awaitValue (fetchApi w text);
  if negb (ok resp)
  then throw (ErrorOf ("HTTP error! status: " +:+ pretty (status resp)))
  else
    data ← awaitValue (json resp);
    match data with
    | BodyNull =>
        throw (ErrorOf "Cannot read properties of null (reading 'story_description')")
    | BodyFields story_description image_metadata =>
        if negb (truthy story_description)
        then throw (ErrorOf "No story description found in response")
        else
          match isArray image_metadata with
          | None => throw (ErrorOf "Invalid image metadata format in response")
          | Some items =>
              update (with_response story_description);;
              update (with_images items);;
              update (with_currentImageIndex 0);;
              update (with_imageLoadError None);;
              speakResponse w story_description
          end
    end.

(** The outer [try] block of [stopListening], up to its [catch]. *)
Definition recordAndTranscribe (w : World) (rec : MediaRecorder) : M unit :=
  update (with_isListening false);;
  update (with_isProcessing true);;
  audioBlob ← stopRecorder w rec;
  emit (Transcribe audioBlob);;
  transcription ← awaitValue (transcribe w audioBlob);
  match transcription with
  | None | Some "" => throw (ErrorOf "No transcription received")
  | Some text =>
      update (with_transcript text);;
      try_catch (submitQuery w text)
        (λ error,
           toast StatusError "Error"
             (messageOr "Failed to process your query" error))
  end.

(** [stopListening]. *)
Definition stopListening (w : World) : M unit :=
  st ← get;
  match mediaRecorderRef st with
  | None => mret tt
  | Some rec =>
      if negb (isListening st) then mret tt
      else
        try_finally
          (try_catch (recordAndTranscribe w rec)
             (λ error,
                toast StatusError "Error"
                  (messageOr "Failed to process audio. Please try again." error)))
          (update (with_isProcessing false);;
           emit TrackStop)
  end.

(** [mediaRecorderRef.current.onerror].  [startListening] is memoised
    with no dependencies, so the [stopListening] it calls here is the one
    of the first render, whose [isListening] is [false] and which returns
    at its guard; the toast is what remains. *)
Definition onRecorderError : M unit :=
  toast StatusError "Recording Error"
    "There was an error while recording. Please try again.".

(** ** Image display failures *)

(** [handleImageError]. *)
Definition handleImageError (path : string) : M unit :=
  let fullPath := getImagePath path in
  update (with_imageLoadError (Some ("Failed to load image: " +:+ fullPath)));;
  toast StatusWarning "Image Load Error"
    ("Could not load image at: " +:+ fullPath
       +:+ ". Check if the image exists and the path is correct.").

(** [uniqueImages[currentImageIndex]]. *)
Definition currentImage (st : AppState) : option ImageMetadata :=
  if (currentImageIndex st <? 0)%Z then None
  else uniqueImages (images st) !! Z.to_nat (currentImageIndex st).

(** [onError] of the displayed image. *)
Definition onImageError : M unit :=
  st ← get;
  match currentImage st with
  | Some img => handleImageError (image_path img)
  | None => mret tt
  end.

(** ** The component as a transition system *)

(** What can happen to the mounted component. *)
Inductive Action :=
| ClickRecord (w : World)       (* the Start/Stop button *)
| ClickPrevious
| ClickNext
| ImageFailed                   (* the displayed image fails to load *)
| DataAvailable (e : Blob)      (* the recorder delivers a chunk *)
| RecorderError.                (* the recorder reports an error *)

(** A handler run on [st] from an empty trace. *)
Definition run {A} (m : M A) (st : AppState) : Run A := m st [].

(** The record button: [isDisabled={isProcessing}] and
    [onClick={isListening ? stopListening : startListening}]. *)
Definition clickRecord (w : World) : M unit :=
  st ← get;
  if isProcessing st then mret tt
  else if isListening st then stopListening w
  else startListening w.

Definition step (a : Action) (st : AppState) : AppState :=
  match a with
  | ClickRecord w => ui (run (clickRecord w) st)
  | ClickPrevious => clickPrevious st
  | ClickNext => clickNext st
  | ImageFailed => ui (run onImageError st)
  | DataAvailable e =>
      if isListening st then ui (run (ondataavailable e) st) else st
  | RecorderError =>
      if isListening st then ui (run onRecorderError st) else st
  end.

(** The states the component is in between two handlers, each handler
    taken to its end.  The states a handler passes through while it is
    suspended at an [await] (such as the one with [isProcessing] on) are
    not among them. *)
Inductive reachable : AppState → Prop :=
| reachable_init : reachable initialState
| reachable_step a st : reachable st → reachable (step a st).

(** ** Observations on a trace *)

(** The calls that leave the browser for a remote service. *)
Definition isNetworkCall (e : Event) : bool :=
  match e with
  | Transcribe _ | Fetch _ | SpeechCreate _ => true
  | _ => false
  end.

Definition isFetch (e : Event) : bool :=
  match e with Fetch _ => true | _ => false end.

(** Speech playback, remote or on-device. *)
Definition isPlayback (e : Event) : bool :=
  match e with
  | SpeechCreate _ | AudioPlay | SpeechSynthesisCancel | SpeechSynthesisSpeak _ => true
  | _ => false
  end.

Definition isErrorToast (e : Event) : bool :=
  match e with Toast StatusError _ _ => true | _ => false end.

Definition isWarningToast (e : Event) : bool :=
  match e with Toast StatusWarning _ _ => true | _ => false end.

(** The part of the state the gallery and the narrative are drawn from. *)
Definition shown (st : AppState)
  : JsValue * list ImageMetadata * Z * option string :=
  (response st, images st, currentImageIndex st, imageLoadError st).

(** ** Stage outcomes *)

(** The transcription stage fails when the call rejects or the answer has
    no text or an empty one ([!transcription.text]). *)
Definition transcriptionFails (r : Thrown + option string) : bool :=
  match r with
  | inl _ => true
  | inr None => true
  | inr (Some text) => String.eqb text ""
  end.

(** The guards of the inner [try] block on the parsed body: the body is
    not [null], [story_description] is truthy and [image_metadata] is an
    array. *)
Definition bodyAccepted (d : JsonBody) : bool :=
  match d with
  | BodyNull => false
  | BodyFields story_description image_metadata =>
      truthy story_description
      && match isArray image_metadata with Some _ => true | None => false end
  end.

(** The query stage fails when [fetch] rejects, the status is not 2xx, the
    body does not parse, or the body is not accepted. *)
Definition queryFails (r : Thrown + HttpResponse) : bool :=
  match r with
  | inl _ => true
  | inr resp =>
      negb (ok resp)
      || match json resp with
         | inl _ => true
         | inr d => negb (bodyAccepted d)
         end
  end.

(** The events of the fallback branch of [speakResponse]. *)
Definition fallbackEvents (w : World) (text : JsValue) : list Event :=
  Toast StatusWarning "Speech Error"
    "Failed to generate speech. Playing in fallback voice."
  :: (if hasSpeechSynthesis w
      then [SpeechSynthesisCancel; SpeechSynthesisSpeak text]
      else []).

(** The state of a live session once the recorder has stopped: the flags
    are switched and the data delivered on stop is in the chunk buffer. *)
Definition atStop (w : World) (st : AppState) : AppState :=
  ui (run (update (with_isListening false);;
           update (with_isProcessing true);;
           ondataavailable (flushed w)) st).

(** The recording that [handleStop] builds from the chunk buffer. *)
Definition recording (w : World) (rec : MediaRecorder) (st : AppState) : Blob :=
  newBlob (chunksRef (atStop w st))
    (if String.eqb (mimeType rec) "" then fallbackMime else mimeType rec).

(** ** The rendered gallery *)

(** The [useEffect] that preloads the gallery: for a non-empty
    [uniqueImages] one [img] element is created per entry, with the
    normalised path of the entry as its [src]; the list holds these
    addresses in the order of creation. *)
Definition preloadSources (st : AppState) : list string :=
  if (0 <? galleryCount st)%Z
  then (λ img, getImagePath (image_path img)) <$> uniqueImages (images st)
  else [].

(** The [src] of the [Image] element, which is rendered only while
    [uniqueImages.length > 0]. *)
Definition displayedSrc (st : AppState) : option string :=
  if (0 <? galleryCount st)%Z
  then (λ img, getImagePath (image_path img)) <$> currentImage st
  else None.

(** ** Sessions *)

(** The recorder delivering the chunks [es] one after the other, each to
    [ondataavailable]. *)
Definition deliver (es : list Blob) (st : AppState) : AppState :=
  foldl (λ s e, ui (run (ondataavailable e) s)) st es.

(** The MIME type [startListening] asks the recorder for. *)
Definition chosenMime (w : World) : string :=
  if mp3Supported w then "audio/mp3" else fallbackMime.

(** [stopListening] as the closure of a render whose [isListening] was
    [listening]: the guard reads the captured value, not the state. *)
Definition stopListeningOf (listening : bool) (w : World) : M unit :=
  st ← get;
  match mediaRecorderRef st with
  | None => mret tt
  | Some rec =>
      if negb listening then mret tt
      else
        try_finally
          (try_catch (recordAndTranscribe w rec)
             (λ error,
                toast StatusError "Error"
                  (messageOr "Failed to process audio. Please try again." error)))
          (update (with_isProcessing false);;
           emit TrackStop)
  end.

(** The body of [mediaRecorderRef.current.onerror] as [startListening]
    installs it.  [startListening] is created once ([useCallback] with no
    dependencies), so its [stopListening] is the closure of the first
    render, where [isListening] is [false]. *)
Definition recorderErrorHandler (w : World) : M unit :=
  stopListeningOf false w;;
  toast StatusError "Recording Error"
    "There was an error while recording. Please try again.".

(** ** The API test panel

    The component [TestApi]: a button whose handler [testFetch] asks the
    backend directly and, failing that, through the development proxy. *)
Module TestApi.

(** The [useState] cells of [TestApi]. *)
Record State := mkState {
  message : JsValue;
  isLoading : bool;
  error : string
}.

Definition initial : State := mkState (JsString "") false "".

Definition with_message (m : JsValue) (st : State) : State :=
  mkState m (isLoading st) (error st).

Definition with_isLoading (b : bool) (st : State) : State :=
  mkState (message st) b (error st).

Definition with_error (e : string) (st : State) : State :=
  mkState (message st) (isLoading st) e.

(** The two requests of the handler. *)
Inductive Request :=
| Direct        (* fetch of the backend's address, mode 'no-cors' *)
| Proxy.        (* fetch('/api') *)

(** A parsed body: [null], or a value whose [message] field is read. *)
Inductive Body :=
| BodyNull
| BodyMessage (message : JsValue).

(** What a request resolves to: whether the response is opaque, and what
    [response.json()] gives. *)
Record Response := mkResponse {
  opaque : bool;
  json : Thrown + Body
}.

(** The answers: of the direct request, and of the proxy by the number of
    proxy requests made before. *)
Record World := mkWorld {
  direct : Thrown + Response;
  proxy : nat → Thrown + Response
}.

Record Run (A : Type) := mkRun {
  result : Result A;
  ui : State;
  trace : list Request
}.
Arguments mkRun {A} result ui trace.
Arguments result {A} r.
Arguments ui {A} r.
Arguments trace {A} r.

(** The handler monad of this component. *)
Definition T (A : Type) : Type := State → list Request → Run A.

Definition ret {A} (a : A) : T A := λ st tr, mkRun (Returned a) st tr.

Definition bind {A B} (m : T A) (k : A → T B) : T B :=
  λ st tr,
    match m st tr with
    | mkRun (Returned a) st' tr' => k a st' tr'
    | mkRun (Threw e) st' tr' => mkRun (Threw e) st' tr'
    end.

#[global] Instance T_ret : MRet T := @ret.
#[global] Instance T_bind : MBind T := λ A B k m, bind m k.

Definition throw {A} (e : Thrown) : T A := λ st tr, mkRun (Threw e) st tr.

Definition try_catch {A} (m : T A) (h : Thrown → T A) : T A :=
  λ st tr,
    match m st tr with
    | mkRun (Returned a) st' tr' => mkRun (Returned a) st' tr'
    | mkRun (Threw e) st' tr' => h e st' tr'
    end.

Definition try_finally {A} (m : T A) (f : T unit) : T A :=
  λ st tr,
    match m st tr with
    | mkRun res st' tr' =>
        match f st' tr' with
        | mkRun (Returned _) st'' tr'' => mkRun res st'' tr''
        | mkRun (Threw e) st'' tr'' => mkRun (Threw e) st'' tr''
        end
    end.

Definition update (f : State → State) : T unit :=
  λ st tr, mkRun (Returned tt) (f st) tr.

Definition awaitValue {A} (r : Thrown + A) : T A :=
  match r with
  | inl e => throw e
  | inr a => mret a
  end.

(** [await fetch(<backend>, { mode: 'no-cors', .. })]. *)
Definition fetchDirect (w : World) : T Response :=
  λ st tr,
    match direct w with
    | inl e => mkRun (Threw e) st (tr ++ [Direct])
    | inr r => mkRun (Returned r) st (tr ++ [Direct])
    end.

Definition isProxy (r : Request) : bool :=
  match r with Proxy => true | Direct => false end.

(** [await fetch('/api', ..)]: the answer is that of the next proxy
    request. *)
Definition fetchProxy (w : World) : T Response :=
  λ st tr,
    match proxy w (length (List.filter isProxy tr)) with
    | inl e => mkRun (Threw e) st (tr ++ [Proxy])
    | inr r => mkRun (Returned r) st (tr ++ [Proxy])
    end.

(** [const data = await response.json(); setMessage(data.message)]. *)
Definition showMessage (r : Response) : T unit :=
  data ← awaitValue (json r);
  match data with
  | BodyNull =>
      throw (ErrorOf "Cannot read properties of null (reading 'message')")
  | BodyMessage m => update (with_message m)
  end.

(** [testFetch]. *)
Definition testFetch (w : World) : T unit :=
  try_finally
    (try_catch
       (update (with_isLoading true);;
        update (with_error "");;
        response ← fetchDirect w;
        if opaque response
        then proxyResponse ← fetchProxy w; showMessage proxyResponse
        else showMessage response)
       (λ error,
          update (with_error (messageOr "Unknown error occurred" error));;
          try_catch
            (proxyResponse ← fetchProxy w;
             showMessage proxyResponse;;
             update (with_error ""))
            (λ _, update (with_error "Both direct and proxy requests failed"))))
    (update (with_isLoading false)).

Definition run (w : World) (st : State) : Run unit := testFetch w st [].

(** Unfolds [testFetch] down to the answers of the collaborators. *)
Ltac unfold_testFetch :=
  cbv [run testFetch showMessage fetchDirect fetchProxy
       awaitValue update throw try_catch try_finally
       mbind T_bind bind mret T_ret ret] in *.

(** Splits on the answers in the order in which the handler reads them. *)
Ltac split_answers :=
  repeat (match goal with
          | |- context [match direct ?w with _ => _ end] =>
              destruct (direct w) as [? | ?] eqn:?
          | |- context [if opaque ?a then _ else _] =>
              destruct (opaque a) eqn:?
          | |- context [match json ?a with _ => _ end] =>
              destruct (json a) as [? | [| ?]] eqn:?
          | |- context [match proxy ?w ?n with _ => _ end] =>
              destruct (proxy w n) as [? | ?] eqn:?
          end; cbn in *).

End TestApi.

(** ** Proof automation *)

(** Reduces the projections of a run and the boolean tests. *)
Ltac reduce_run :=
  cbn [result ui trace negb orb andb bodyAccepted isArray messageOr app] in *.

(** Unfolds a handler down to the state and trace it produces. *)
Ltac unfold_handler :=
  cbv [run clickRecord startListening stopListening recordAndTranscribe
       submitQuery stopRecorder ondataavailable speakResponse onImageError
       handleImageError toast awaitValue await update emit get throw
       try_catch try_finally mbind M_bind bind mret M_ret ret] in *;
  reduce_run.

(** Finds an event in an explicit trace. *)
Ltac in_list :=
  repeat first [apply list_elem_of_here | apply list_elem_of_further].

(** Refutes the membership [H] of an event in an explicit trace that has
    no event of its kind. *)
Ltac absurd_in_list H :=
  repeat (apply elem_of_cons in H as [H | H]; [discriminate H |]);
  by apply elem_of_nil in H.

(** Unfolds [stopListening] down to the query stage, which stays folded. *)
Ltac unfold_stop :=
  cbv [run stopListening recordAndTranscribe stopRecorder ondataavailable
       atStop recording
       toast awaitValue await update emit get throw try_catch try_finally
       mbind M_bind bind mret M_ret ret] in *;
  reduce_run.

(** * Properties *)

(** ** De-duplication *)

Section Dedup.
Implicit Types (seen : gset string) (imgs pre : list ImageMetadata).

(** Whatever [filter_seen] keeps carries a path that was not in [seen]. *)
Lemma filter_seen_fresh seen imgs img :
  img ∈ filter_seen seen imgs → (image_path img ∉ seen) ∧ (img ∈ imgs).
Proof.
  revert seen. induction imgs as [|x rest IH]; intros seen; simpl.
  - intros H. inversion H.
  - destruct (decide (image_path x ∈ seen)) as [Hin|Hnin].
    + intros H. destruct (IH _ H) as [? ?]. split; [done | by right].
    + intros H. apply elem_of_cons in H as [->|H].
      * split; [done | by left].
      * destruct (IH _ H) as [Hf ?]. split; [| by right].
        intros Hs. apply Hf, elem_of_union. by right.
Qed.

Lemma filter_seen_NoDup seen imgs :
  NoDup (image_path <$> filter_seen seen imgs).
Proof.
  revert seen. induction imgs as [|x rest IH]; intros seen; simpl.
  - constructor.
  - destruct (decide (image_path x ∈ seen)); [apply IH |].
    rewrite fmap_cons. constructor; [| apply IH].
    intros Hin. apply list_elem_of_fmap in Hin as (y & Hy & Hin).
    apply filter_seen_fresh in Hin as [Hfresh _].
    apply Hfresh, elem_of_union. left. by apply elem_of_singleton.
Qed.

(** [filter_seen] run after the prefix [pre] has been seen keeps position
    [i] exactly when its path is neither in [pre] nor before [i]. *)
Lemma filter_seen_positions seen pre imgs :
  (∀ p, p ∈ seen ↔ p ∈ image_path <$> pre) →
  filter_seen seen imgs =
  mjoin (imap (λ i img,
    if decide (image_path img ∈ image_path <$> (pre ++ take i imgs))
    then [] else [img]) imgs).
Proof.
  revert seen pre. induction imgs as [|x rest IH]; intros seen pre Hseen.
  - reflexivity.
  - cbn [filter_seen imap mjoin list_join take].
    rewrite app_nil_r.
    assert (Hrest : ∀ seen',
      (∀ p, p ∈ seen' ↔ p ∈ image_path <$> (pre ++ [x])) →
      filter_seen seen' rest =
      mjoin (imap ((λ i img,
        if decide (image_path img ∈ image_path <$> (pre ++ take i (x :: rest)))
        then [] else [img]) ∘ S) rest)).
    { intros seen' Hseen'. rewrite (IH seen' (pre ++ [x]) Hseen').
      f_equal. apply imap_ext. intros i y _. simpl.
      by rewrite <- app_assoc. }
    destruct (decide (image_path x ∈ seen)) as [Hin|Hnin].
    + rewrite decide_True by (by apply Hseen).
      simpl. apply Hrest. intros p. rewrite fmap_app, elem_of_app.
      rewrite <- Hseen. split; [by left |].
      intros [? | Hp]; [done |].
      apply list_elem_of_fmap in Hp as (y & -> & Hy).
      by apply list_elem_of_singleton in Hy as ->.
    + rewrite decide_False by (by rewrite <- Hseen).
      simpl. f_equal. apply Hrest. intros p.
      rewrite fmap_app, elem_of_app, <- Hseen, elem_of_union.
      rewrite elem_of_singleton, list_fmap_singleton, list_elem_of_singleton.
      tauto.
Qed.
End Dedup.

(** C1. The de-duplicated list has no two entries with the same path; it
    is the input with every entry dropped whose path an earlier entry
    carries, the rest in their order (first occurrences kept, in order);
    and input paths a.jpg, b.jpg, a.jpg, c.jpg give a.jpg, b.jpg, c.jpg,
    the kept a.jpg being the first one. *)
Theorem uniqueImages_first_occurrences :
  (∀ imgs : list ImageMetadata,
     NoDup (image_path <$> uniqueImages imgs)
     ∧ uniqueImages imgs = first_occurrences imgs)
  ∧ uniqueImages
      [photo 1 "a.jpg"; photo 2 "b.jpg"; photo 3 "a.jpg"; photo 4 "c.jpg"]
    = [photo 1 "a.jpg"; photo 2 "b.jpg"; photo 4 "c.jpg"].
Proof.
  split; [| reflexivity].
  intros imgs. split.
  - apply filter_seen_NoDup.
  - unfold uniqueImages, first_occurrences.
    apply (filter_seen_positions ∅ []). intros p.
    split; [intros H; by apply not_elem_of_empty in H | intros H; inversion H].
Qed.

(** ** Path normalisation *)

Lemma displayRoot_prefix_prepended (p : string) :
  String.prefix displayRoot (displayRoot +:+ p) = true.
Proof. cbn. by destruct p. Qed.

(** C10. For every path the normalised path starts with [/images/], and
    normalising twice is normalising once. *)
Theorem getImagePath_rooted_idempotent (p : string) :
  String.prefix displayRoot (getImagePath p) = true
  ∧ getImagePath (getImagePath p) = getImagePath p.
Proof.
  assert (Hroot : String.prefix displayRoot (getImagePath p) = true).
  { unfold getImagePath.
    destruct (String.prefix displayRoot p) eqn:Hp; [done |].
    apply displayRoot_prefix_prepended. }
  split; [done |].
  unfold getImagePath at 1. by rewrite Hroot.
Qed.

(** De-duplication compares the stored paths, not the normalised ones: a
    bare file name and the same name under [/images/] are both kept
    although they resolve to one address. *)
Lemma uniqueImages_compares_stored_paths :
  getImagePath "IMG1.jpg" = getImagePath "/images/IMG1.jpg"
  ∧ uniqueImages [photo 1 "IMG1.jpg"; photo 2 "/images/IMG1.jpg"]
    = [photo 1 "IMG1.jpg"; photo 2 "/images/IMG1.jpg"].
Proof. split; reflexivity. Qed.

(** C2, as stated, fails: images with paths IMG1.jpg and images/IMG1.jpg
    are not duplicates, before or after normalisation, and the gallery
    does not show one image for them. *)
Lemma scenarioA_not_one_image :
  ¬ (∀ a b : ImageMetadata,
       image_path a = "IMG1.jpg" → image_path b = "images/IMG1.jpg" →
       getImagePath (image_path a) = getImagePath (image_path b)
       ∧ length (uniqueImages [a; b]) = 1%nat).
Proof.
  intros H.
  destruct (H (photo 1 "IMG1.jpg") (photo 2 "images/IMG1.jpg") eq_refl eq_refl)
    as [_ Hlen].
  discriminate Hlen.
Qed.

(** C2, amended. Two images with paths IMG1.jpg and images/IMG1.jpg are
    both kept, in their order: de-duplication compares the stored paths,
    and the paths resolve to the two addresses /images/IMG1.jpg and
    /images/images/IMG1.jpg, since only a path that starts with /images/
    is used as it is. *)
Theorem scenarioA_two_images (a b : ImageMetadata) :
  image_path a = "IMG1.jpg" → image_path b = "images/IMG1.jpg" →
  uniqueImages [a; b] = [a; b]
  ∧ getImagePath (image_path a) = "/images/IMG1.jpg"
  ∧ getImagePath (image_path b) = "/images/images/IMG1.jpg".
Proof.
  intros Ha Hb. unfold uniqueImages. cbn [filter_seen].
  rewrite Ha, Hb. split; [| split; reflexivity].
  rewrite decide_False by (intros H; by apply not_elem_of_empty in H).
  rewrite decide_False; [done |].
  rewrite elem_of_union, elem_of_singleton.
  intros [H | H]; [discriminate H | by apply not_elem_of_empty in H].
Qed.

Lemma scenarioA_two_images_witness :
  uniqueImages [photo 1 "IMG1.jpg"; photo 2 "images/IMG1.jpg"]
    = [photo 1 "IMG1.jpg"; photo 2 "images/IMG1.jpg"]
  ∧ getImagePath (image_path (photo 1 "IMG1.jpg")) = "/images/IMG1.jpg"
  ∧ getImagePath (image_path (photo 2 "images/IMG1.jpg"))
    = "/images/images/IMG1.jpg".
Proof.
  apply (scenarioA_two_images (photo 1 "IMG1.jpg") (photo 2 "images/IMG1.jpg"));
    reflexivity.
Defined.

(** ** Start *)

(** What [startListening] leaves in the state, whatever the microphone
    and the recorder do. *)
Lemma startListening_state (w : World) (st : AppState) :
  let st' := ui (run (startListening w) st) in
  transcript st' = ""
  ∧ response st' = JsString ""
  ∧ chunksRef st' = []
  ∧ isProcessing st' = false
  ∧ images st' = images st
  ∧ currentImageIndex st' = currentImageIndex st
  ∧ imageLoadError st' = imageLoadError st.
Proof.
  unfold_handler.
  destruct (getUserMedia w); reduce_run; [done |].
  destruct (newMediaRecorder w _); reduce_run; done.
Qed.

(** C3. Start empties the transcript and the response, while the images,
    the cursor and the image-error message of the previous session stay
    as they were, whatever the microphone and the recorder do; a gallery
    of one image with a recorded load failure is still there after
    Start. *)
Theorem startListening_keeps_gallery :
  (∀ (w : World) (st : AppState),
     let st' := ui (run (startListening w) st) in
     transcript st' = ""
     ∧ response st' = JsString ""
     ∧ images st' = images st
     ∧ currentImageIndex st' = currentImageIndex st
     ∧ imageLoadError st' = imageLoadError st)
  ∧ (∀ w : World,
       let st := mkAppState false false "old question" (JsString "old story")
                   [photo 1 "a.jpg"] 0 (Some "Failed to load image: /images/a.jpg")
                   None [] in
       let st' := ui (run (startListening w) st) in
       images st' = [photo 1 "a.jpg"]
       ∧ imageLoadError st' = Some "Failed to load image: /images/a.jpg").
Proof.
  split.
  - intros w st.
    destruct (startListening_state w st) as (? & ? & _ & _ & ? & ? & ?).
    done.
  - intros w st.
    destruct (startListening_state w st) as (_ & _ & _ & _ & ? & _ & ?).
    done.
Qed.

(** C4, as stated, fails: a failed acquisition does not leave the whole
    state unchanged, for the transcript of the previous session is gone. *)
Lemma failed_start_changes_state :
  ¬ (∀ (w : World) (st : AppState) (e : Thrown),
       getUserMedia w = Some e → ui (run (startListening w) st) = st).
Proof.
  intros H.
  pose (w := mkWorld (Some (ErrorOf "Permission denied")) false (λ _, None)
               (mkBlob [] "") (λ _, inr None) (λ _, inl NotAnError)
               (λ _, None) None false).
  pose (st := mkAppState false false "old question" (JsString "old story")
                [] 0 None None []).
  specialize (H w st (ErrorOf "Permission denied") eq_refl).
  apply (f_equal transcript) in H. discriminate H.
Qed.

(** C4, amended. When the microphone cannot be acquired, the handler
    shows one error toast and makes no other call than the acquisition
    itself, so no network call; the session does not start: the listening
    flag, the recorder, the images, the cursor and the image-error message
    are unchanged.  The reset that precedes the acquisition stands:
    transcript and response are empty, the chunk buffer is empty and the
    processing flag is off. *)
Theorem failed_start_no_session (w : World) (st : AppState) (e : Thrown) :
  getUserMedia w = Some e →
  let r := run (startListening w) st in
  result r = Returned tt
  ∧ trace r = [GetUserMedia;
               Toast StatusError "Error"
                 "Failed to start recording. Please check your microphone permissions."]
  ∧ Forall (λ ev, isNetworkCall ev = false) (trace r)
  ∧ ui r = with_isProcessing false
             (with_response (JsString "")
                (with_transcript "" (with_chunksRef [] st)))
  ∧ isListening (ui r) = isListening st
  ∧ mediaRecorderRef (ui r) = mediaRecorderRef st
  ∧ images (ui r) = images st
  ∧ currentImageIndex (ui r) = currentImageIndex st
  ∧ imageLoadError (ui r) = imageLoadError st.
Proof.
  intros Hmic. unfold_handler. rewrite Hmic. simpl.
  repeat split; repeat constructor.
Qed.

Lemma failed_start_no_session_witness :
  let w := mkWorld (Some (ErrorOf "Permission denied")) false (λ _, None)
             (mkBlob [] "") (λ _, inr None) (λ _, inl NotAnError)
             (λ _, None) None false in
  let st := mkAppState false false "old question" (JsString "old story")
              [photo 1 "a.jpg"] 0 None None [] in
  getUserMedia w = Some (ErrorOf "Permission denied")
  ∧ trace (run (startListening w) st)
    = [GetUserMedia;
       Toast StatusError "Error"
         "Failed to start recording. Please check your microphone permissions."]
  ∧ images (ui (run (startListening w) st)) = [photo 1 "a.jpg"]
  ∧ transcript (ui (run (startListening w) st)) = "".
Proof.
  intros w st. split; [reflexivity |].
  pose proof (failed_start_no_session w st (ErrorOf "Permission denied") eq_refl)
    as (_ & Htrace & _ & Hui & _ & _ & Himages & _).
  split; [exact Htrace |]. split; [exact Himages |].
  rewrite Hui. reflexivity.
Defined.

(** ** Speech playback *)

(** [speakResponse] always returns, leaves the state alone, and adds to
    the trace the synthesis call followed by the playback or by the
    fallback branch. *)
Lemma speakResponse_run (w : World) (text : JsValue) (st : AppState)
    (tr : list Event) :
  let r := speakResponse w text st tr in
  result r = Returned tt
  ∧ ui r = st
  ∧ trace r = tr ++ SpeechCreate text ::
      match speechCreate w text with
      | Some _ => fallbackEvents w text
      | None => AudioPlay ::
          match audioPlay w with
          | Some _ => fallbackEvents w text
          | None => []
          end
      end.
Proof.
  unfold_handler. unfold fallbackEvents.
  destruct (speechCreate w text), (audioPlay w), (hasSpeechSynthesis w);
    simpl; rewrite <- ?app_assoc; done.
Qed.

(** ** The query stage *)

(** The query stage either throws, having touched nothing and made no
    call but the request itself, or it accepts the answer: narrative and
    images are stored, the cursor is 0, the image-error message is cleared
    and the narrative is spoken. *)
Lemma submitQuery_run (w : World) (text : string) (st : AppState)
    (tr : list Event) :
  let r := submitQuery w text st tr in
  (queryFails (fetchApi w text) = true
   ∧ (∃ e, result r = Threw e) ∧ ui r = st ∧ trace r = tr ++ [Fetch text])
  ∨ (∃ resp story items,
       fetchApi w text = inr resp
       ∧ queryFails (fetchApi w text) = false
       ∧ json resp = inr (BodyFields story (JsArray items))
       ∧ result r = Returned tt
       ∧ ui r = with_imageLoadError None
                  (with_currentImageIndex 0
                     (with_images items (with_response story st)))
       ∧ trace r = trace (speakResponse w story st (tr ++ [Fetch text]))).
Proof.
  unfold submitQuery, queryFails.
  cbv [awaitValue update emit throw mbind M_bind bind mret M_ret ret].
  destruct (fetchApi w text) as [e | resp]; reduce_run; [left; eauto |].
  destruct (ok resp); reduce_run; [| left; eauto].
  destruct (json resp) as [e | [| story meta]] eqn:Hjson; reduce_run;
    [left; eauto .. |].
  destruct (truthy story); reduce_run; [| left; eauto].
  destruct meta; reduce_run; try (left; by eauto).
  right. exists resp, story, items.
  pose proof (speakResponse_run w story
    (with_imageLoadError None
       (with_currentImageIndex 0 (with_images items (with_response story st))))
    (tr ++ [Fetch text])) as (Hres & Hui & Htr).
  pose proof (speakResponse_run w story st (tr ++ [Fetch text])) as (_ & _ & Htr').
  cbv zeta in Hres, Hui, Htr, Htr'. rewrite Hres, Hui, Htr, Htr'. done.
Qed.

(** ** Stop: the pipeline *)

(** The capture leaves what is shown as it was. *)
Lemma shown_atStop (w : World) (st : AppState) :
  shown (atStop w st) = shown st.
Proof.
  unfold_stop. by destruct (0 <? blob_size (flushed w))%nat.
Qed.

Lemma isListening_atStop (w : World) (st : AppState) :
  isListening (atStop w st) = false.
Proof.
  unfold_stop. by destruct (0 <? blob_size (flushed w))%nat.
Qed.

(** The runs of [stopListening], stage by stage.  The handler always
    returns.  Without a live session it does nothing.  Otherwise the
    recorder is stopped; an empty recording ends the run with an error
    toast before any call; a failed transcription ends it with an error
    toast after the transcription call alone; and else the transcript is
    stored and the query stage runs, its failure caught into an error
    toast.  The tracks are released and the processing flag is off at the
    end of every run of a live session. *)
Lemma stopListening_run (w : World) (st : AppState) :
  let r := run (stopListening w) st in
  result r = Returned tt
  ∧ (((mediaRecorderRef st = None ∨ isListening st = false)
      ∧ ui r = st ∧ trace r = [])
     ∨ ∃ rec, mediaRecorderRef st = Some rec ∧ isListening st = true
       ∧ let blob := recording w rec st in
         ((blob_size blob = 0%nat
           ∧ ui r = with_isProcessing false (atStop w st)
           ∧ trace r = [RecorderStop; TrackStop;
                        Toast StatusError "Error" "No audio data recorded";
                        TrackStop])
          ∨ (blob_size blob ≠ 0%nat
             ∧ transcriptionFails (transcribe w blob) = true
             ∧ ui r = with_isProcessing false (atStop w st)
             ∧ ∃ msg, trace r = [RecorderStop; TrackStop; Transcribe blob;
                                 Toast StatusError "Error" msg; TrackStop])
          ∨ (∃ text, blob_size blob ≠ 0%nat
             ∧ transcribe w blob = inr (Some text) ∧ text ≠ ""
             ∧ let q := submitQuery w text (with_transcript text (atStop w st))
                          [RecorderStop; TrackStop; Transcribe blob] in
               ui r = with_isProcessing false (ui q)
               ∧ trace r = trace q
                   ++ match result q with
                      | Returned _ => []
                      | Threw e =>
                          [Toast StatusError "Error"
                             (messageOr "Failed to process your query" e)]
                      end
                   ++ [TrackStop]))).
Proof.
  unfold_stop.
  destruct (mediaRecorderRef st) as [rec |]; reduce_run; [| by eauto 6].
  destruct (isListening st); reduce_run; [| by eauto 6].
  assert (Hlive : ∀ P : MediaRecorder → Prop, P rec →
            ∃ rec0, Some rec = Some rec0 ∧ true = true ∧ P rec0) by eauto.
  destruct (0 <? blob_size (flushed w))%nat; reduce_run;
    (match goal with
     | |- context [(blob_size ?b =? 0)%nat] =>
         destruct (blob_size b =? 0)%nat eqn:Hsize; reduce_run;
         [apply Nat.eqb_eq in Hsize | apply Nat.eqb_neq in Hsize]
     end;
     [split; [done |]; right; apply Hlive; left; done |]);
    (match goal with
     | |- context [transcribe w ?b] =>
         destruct (transcribe w b) as [e | [[| a text] |]] eqn:Htext; reduce_run
     end;
     [split; [done |]; right; apply Hlive; right; left;
      rewrite Htext; by eauto .. |
      | split; [done |]; right; apply Hlive; right; left;
        rewrite Htext; by eauto]);
    (match goal with
     | |- context [submitQuery w ?t ?s ?tr] =>
         destruct (submitQuery w t s tr) as [[[] | e] stq trq] eqn:Hq;
         reduce_run
     end);
    (split; [done |]); right; apply Hlive;
    right; right; exists (String a text);
    (repeat (split; [done |])); rewrite Hq; reduce_run;
    by rewrite <- ?app_assoc.
Qed.

(** ** The carousel *)

Section Carousel.
Local Open Scope Z_scope.

Variable st : AppState.
Let N := galleryCount st.

Lemma with_currentImageIndex_same :
  with_currentImageIndex (currentImageIndex st) st = st.
Proof. by destruct st. Qed.

Lemma navEnabled_iff : navEnabled st = true ↔ 1 < N.
Proof.
  unfold navEnabled. fold N.
  rewrite andb_true_iff, negb_true_iff, Z.ltb_lt, Z.leb_gt. lia.
Qed.

Lemma navEnabled_moved (j : Z) :
  navEnabled (with_currentImageIndex j st) = navEnabled st.
Proof. reflexivity. Qed.

(** A disabled button changes nothing. *)
Lemma nav_disabled : N ≤ 1 → clickNext st = st ∧ clickPrevious st = st.
Proof.
  intros HN. unfold clickNext, clickPrevious.
  destruct (navEnabled st) eqn:Hnav; [| done].
  apply navEnabled_iff in Hnav. lia.
Qed.

Hypothesis Hmany : 1 < N.

Lemma clickNext_index (j : Z) :
  0 ≤ j →
  clickNext (with_currentImageIndex j st)
  = with_currentImageIndex ((j + 1) mod N) st.
Proof.
  intros Hj. unfold clickNext. rewrite navEnabled_moved.
  rewrite (proj2 navEnabled_iff Hmany).
  cbn [currentImageIndex with_currentImageIndex].
  change (galleryCount (with_currentImageIndex j st)) with N.
  rewrite Z.rem_mod_nonneg by lia. reflexivity.
Qed.

Lemma clickPrevious_index (j : Z) :
  0 ≤ j < N →
  clickPrevious (with_currentImageIndex j st)
  = with_currentImageIndex ((j - 1) mod N) st.
Proof.
  intros Hj. unfold clickPrevious. rewrite navEnabled_moved.
  rewrite (proj2 navEnabled_iff Hmany).
  cbn [currentImageIndex with_currentImageIndex].
  change (galleryCount (with_currentImageIndex j st)) with N.
  rewrite Z.rem_mod_nonneg by lia.
  replace (j - 1 + N) with (j - 1 + 1 * N) by lia.
  by rewrite Z.mod_add by lia.
Qed.

(** [k] clicks on Next advance the cursor by [k] modulo the count. *)
Lemma iter_clickNext (k : nat) :
  0 ≤ currentImageIndex st < N →
  Nat.iter k clickNext st
  = with_currentImageIndex ((currentImageIndex st + Z.of_nat k) mod N) st.
Proof.
  intros Hi. induction k as [| k IH].
  - cbn [Nat.iter nat_rect]. rewrite Z.add_0_r, Z.mod_small by done.
    symmetry. apply with_currentImageIndex_same.
  - cbn [Nat.iter nat_rect]. fold (Nat.iter k clickNext st). rewrite IH.
    rewrite clickNext_index by (apply Z.mod_pos_bound; lia).
    f_equal. rewrite Zplus_mod_idemp_l. f_equal. lia.
Qed.
End Carousel.

(** C7. On a gallery of more than one image a click on Next or Previous
    moves a cursor in range to the next or previous index modulo the
    count, which is in range again, and as many clicks on Next as there
    are images bring the state back; on a gallery of at most one image
    both buttons leave the state as it is. *)
Theorem carousel_wraps (st : AppState) :
  let N := galleryCount st in
  let i := currentImageIndex st in
  ((1 < N)%Z → (0 ≤ i < N)%Z →
     currentImageIndex (clickNext st) = ((i + 1) mod N)%Z
     ∧ currentImageIndex (clickPrevious st) = ((i - 1) mod N)%Z
     ∧ (0 ≤ currentImageIndex (clickNext st) < N)%Z
     ∧ (0 ≤ currentImageIndex (clickPrevious st) < N)%Z
     ∧ galleryCount (clickNext st) = N
     ∧ galleryCount (clickPrevious st) = N
     ∧ Nat.iter (Z.to_nat N) clickNext st = st)
  ∧ ((N ≤ 1)%Z → clickNext st = st ∧ clickPrevious st = st).
Proof.
  intros N i. split; [| apply nav_disabled].
  intros HN Hi.
  pose proof (clickNext_index st HN i (proj1 Hi)) as Hnext.
  pose proof (clickPrevious_index st HN i Hi) as Hprev.
  unfold i in Hnext, Hprev. rewrite with_currentImageIndex_same in Hnext, Hprev.
  rewrite Hnext, Hprev. cbn [currentImageIndex with_currentImageIndex].
  fold i. fold N.
  repeat split; try reflexivity; try (apply Z.mod_pos_bound; lia).
  rewrite (iter_clickNext st HN (Z.to_nat N) Hi). fold i. fold N. rewrite Z2Nat.id by lia.
  replace (i + N)%Z with (i + 1 * N)%Z by lia.
  rewrite Z.mod_add, Z.mod_small by lia.
  apply with_currentImageIndex_same.
Qed.

Lemma carousel_wraps_witness :
  let st := mkAppState false false "" (JsString "story")
              [photo 1 "a.jpg"; photo 2 "b.jpg"; photo 3 "a.jpg"; photo 4 "c.jpg"]
              2 None None [] in
  galleryCount st = 3%Z
  ∧ currentImageIndex (clickNext st) = 0%Z
  ∧ currentImageIndex (clickPrevious st) = 1%Z
  ∧ clickNext (clickNext (clickNext st)) = st.
Proof.
  intros st.
  destruct (carousel_wraps st) as [Hmany _].
  destruct Hmany as (Hn & Hp & _ & _ & _ & _ & Hiter);
    [reflexivity | change (0 ≤ 2 < 3)%Z; lia |].
  split; [reflexivity |]. split; [exact Hn |]. split; [exact Hp |].
  exact Hiter.
Defined.

(** [nextImage], which is not wired to any button, counts the images
    before de-duplication and can leave the gallery's range. *)
Lemma nextImage_counts_duplicates :
  let st := mkAppState false false "" (JsString "story")
              [photo 1 "a.jpg"; photo 2 "a.jpg"; photo 3 "b.jpg"]
              1 None None [] in
  galleryCount st = 2%Z
  ∧ (currentImageIndex <$> nextImage st) = Some 2%Z.
Proof. split; reflexivity. Qed.

(** ** Rejected and failed stages *)

Lemma shown_frame (st : AppState) :
  (∀ b, shown (with_isProcessing b st) = shown st)
  ∧ (∀ b, shown (with_isListening b st) = shown st)
  ∧ (∀ t, shown (with_transcript t st) = shown st)
  ∧ (∀ c, shown (with_chunksRef c st) = shown st)
  ∧ (∀ m, shown (with_mediaRecorderRef m st) = shown st).
Proof. done. Qed.

(** What is shown after the capture and the storing of the transcript. *)
Lemma shown_before_query (w : World) (st : AppState) (text : string) :
  shown (with_isProcessing false (with_transcript text (atStop w st)))
  = shown st.
Proof. apply shown_atStop. Qed.

Lemma shown_after_capture (w : World) (st : AppState) :
  shown (with_isProcessing false (atStop w st)) = shown st.
Proof. apply shown_atStop. Qed.




(** ** Speech fallback *)

(** C9. In a session whose recording is transcribed and whose query is
    accepted, a failing synthesis call is answered by one warning toast
    and, where the browser has a speech synthesizer, by the fallback
    speaking the same narrative; the handler returns, no error toast is
    shown, the narrative and the images are in the state, and both flags
    are off. *)
Theorem tts_failure_falls_back (w : World) (st : AppState) (rec : MediaRecorder)
    (text : string) (resp : HttpResponse) (story : JsValue)
    (items : list ImageMetadata) (e : Thrown) :
  mediaRecorderRef st = Some rec → isListening st = true →
  blob_size (recording w rec st) ≠ 0%nat →
  transcribe w (recording w rec st) = inr (Some text) → text ≠ "" →
  fetchApi w text = inr resp → ok resp = true →
  json resp = inr (BodyFields story (JsArray items)) → truthy story = true →
  speechCreate w story = Some e →
  let r := run (stopListening w) st in
  result r = Returned tt
  ∧ response (ui r) = story
  ∧ images (ui r) = items
  ∧ currentImageIndex (ui r) = 0%Z
  ∧ isProcessing (ui r) = false
  ∧ isListening (ui r) = false
  ∧ filter (λ ev, isWarningToast ev = true) (trace r)
    = [Toast StatusWarning "Speech Error"
         "Failed to generate speech. Playing in fallback voice."]
  ∧ filter (λ ev, isPlayback ev = true) (trace r)
    = SpeechCreate story
      :: (if hasSpeechSynthesis w
          then [SpeechSynthesisCancel; SpeechSynthesisSpeak story]
          else [])
  ∧ Forall (λ ev, isErrorToast ev = false) (trace r).
Proof.
  intros Hrec Hlive Hsize Htext Hne Hfetch Hok Hjson Hstory Htts r.
  destruct (stopListening_run w st) as [Hres Hrun]. fold r in Hres, Hrun.
  split; [done |].
  destruct Hrun as
    [([Hnone | Hidle] & _)
    | (rec' & Hrec' & _ & [(Hempty & _)
                          | [(_ & Hfail & _)
                            | (text' & _ & Htext' & _ & Hui & Htr)]])];
    try congruence; simplify_eq.
  { rewrite Htext in Hfail. simpl in Hfail.
    by apply String.eqb_eq in Hfail. }
  rewrite Htext in Htext'. injection Htext' as Ht. subst text'.
  destruct (submitQuery_run w text (with_transcript text (atStop w st))
              [RecorderStop; TrackStop; Transcribe (recording w rec st)])
    as [(Hfail & _)
       | (resp' & story' & items' & Hfetch' & _ & Hjson' & Hq & Hqui & Hqtr)].
  { unfold queryFails in Hfail. rewrite Hfetch, Hok, Hjson in Hfail.
    simpl in Hfail. by rewrite Hstory in Hfail. }
  rewrite Hfetch in Hfetch'. injection Hfetch' as Hresp. subst resp'.
  rewrite Hjson in Hjson'. injection Hjson' as Hs Hi. subst story' items'.
  destruct (speakResponse_run w story (with_transcript text (atStop w st))
              [RecorderStop; TrackStop; Transcribe (recording w rec st); Fetch text])
    as (_ & _ & Hspeak).
  reduce_run.
  rewrite Hqtr, Hq, Hspeak, Htts in Htr. rewrite Hqui in Hui.
  rewrite Hui, Htr. unfold fallbackEvents.
  cbn [response images currentImageIndex isProcessing isListening
       with_isProcessing with_imageLoadError with_currentImageIndex
       with_images with_response with_transcript app].
  rewrite isListening_atStop.
  repeat (split; [done |]).
  destruct (hasSpeechSynthesis w);
    (split; [reflexivity |]); (split; [reflexivity |]); repeat constructor.
Qed.

Lemma tts_failure_falls_back_witness :
  let st := mkAppState true false "" (JsString "") [] 0 None
              (Some (mkMediaRecorder "audio/webm;codecs=opus")) [] in
  let w := mkWorld None false (λ _, None) (mkBlob [Byte.x01] "audio/webm")
             (λ _, inr (Some "beach photos from July"))
             (λ _, inr (mkHttpResponse 200
                (inr (BodyFields (JsString "Here are your beach memories")
                        (JsArray [photo 1 "IMG1.jpg"])))))
             (λ _, Some (ErrorOf "quota")) None true in
  response (ui (run (stopListening w) st))
    = JsString "Here are your beach memories"
  ∧ images (ui (run (stopListening w) st)) = [photo 1 "IMG1.jpg"]
  ∧ filter (λ ev, isPlayback ev = true) (trace (run (stopListening w) st))
    = [SpeechCreate (JsString "Here are your beach memories");
       SpeechSynthesisCancel;
       SpeechSynthesisSpeak (JsString "Here are your beach memories")].
Proof.
  intros st w.
  pose proof (tts_failure_falls_back w st
                (mkMediaRecorder "audio/webm;codecs=opus")
                "beach photos from July"
                (mkHttpResponse 200
                   (inr (BodyFields (JsString "Here are your beach memories")
                           (JsArray [photo 1 "IMG1.jpg"]))))
                (JsString "Here are your beach memories")
                [photo 1 "IMG1.jpg"] (ErrorOf "quota")) as H.
  destruct H as (_ & Hresp & Himgs & _ & _ & _ & _ & Hplay & _);
    try reflexivity; try discriminate.
  split; [exact Hresp |]. split; [exact Himgs |]. exact Hplay.
Defined.

(** ** The gallery invariant *)

(** The invariant reads the images and the cursor only. *)
Lemma gallery_inv_frame (st st' : AppState) :
  images st' = images st → currentImageIndex st' = currentImageIndex st →
  gallery_inv st → gallery_inv st'.
Proof.
  unfold gallery_inv, galleryCount. intros -> ->. done.
Qed.

Lemma gallery_inv_shown (st st' : AppState) :
  shown st' = shown st → gallery_inv st → gallery_inv st'.
Proof.
  unfold shown. intros Heq. apply gallery_inv_frame; congruence.
Qed.

(** A cursor at 0 satisfies the invariant on any image list. *)
Lemma gallery_inv_reset (st : AppState) :
  currentImageIndex st = 0%Z → gallery_inv st.
Proof.
  unfold gallery_inv, galleryCount. intros -> Hne.
  destruct (uniqueImages (images st)); [done |]. cbn [length]. lia.
Qed.

Lemma gallery_inv_clickNext (st : AppState) :
  gallery_inv st → gallery_inv (clickNext st).
Proof.
  intros Hinv. unfold clickNext.
  destruct (navEnabled st) eqn:Hnav; [| done].
  apply navEnabled_iff in Hnav. intros _.
  cbn [currentImageIndex with_currentImageIndex].
  change (galleryCount (with_currentImageIndex _ st)) with (galleryCount st).
  apply Z.rem_bound_pos_pos; [lia |].
  assert (uniqueImages (images st) ≠ []) as Hne.
  { unfold galleryCount in Hnav. by destruct (uniqueImages (images st)). }
  specialize (Hinv Hne). lia.
Qed.

Lemma gallery_inv_clickPrevious (st : AppState) :
  gallery_inv st → gallery_inv (clickPrevious st).
Proof.
  intros Hinv. unfold clickPrevious.
  destruct (navEnabled st) eqn:Hnav; [| done].
  apply navEnabled_iff in Hnav. intros _.
  cbn [currentImageIndex with_currentImageIndex].
  change (galleryCount (with_currentImageIndex _ st)) with (galleryCount st).
  apply Z.rem_bound_pos_pos; [lia |].
  assert (uniqueImages (images st) ≠ []) as Hne.
  { unfold galleryCount in Hnav. by destruct (uniqueImages (images st)). }
  specialize (Hinv Hne). lia.
Qed.

(** The query stage keeps the invariant: it either leaves images and
    cursor alone or stores new images with the cursor at 0. *)
Lemma gallery_inv_submitQuery (w : World) (text : string) (st : AppState)
    (tr : list Event) :
  gallery_inv st → gallery_inv (ui (submitQuery w text st tr)).
Proof.
  intros Hinv.
  destruct (submitQuery_run w text st tr)
    as [(_ & _ & -> & _) | (resp & story & items & _ & _ & _ & _ & -> & _)];
    [done |].
  by apply gallery_inv_reset.
Qed.

Lemma gallery_inv_stopListening (w : World) (st : AppState) :
  gallery_inv st → gallery_inv (ui (run (stopListening w) st)).
Proof.
  intros Hinv.
  destruct (stopListening_run w st) as [_ Hrun].
  destruct Hrun as
    [(_ & -> & _)
    | (rec & _ & _ & [(_ & -> & _)
                     | [(_ & _ & -> & _)
                       | (text & _ & _ & _ & -> & _)]])];
    [done | | |].
  - by apply (gallery_inv_shown st), Hinv; [apply shown_after_capture].
  - by apply (gallery_inv_shown st), Hinv; [apply shown_after_capture].
  - apply (gallery_inv_frame (ui (submitQuery w text
             (with_transcript text (atStop w st))
             [RecorderStop; TrackStop; Transcribe (recording w rec st)])));
      [done | done |].
    apply gallery_inv_submitQuery.
    apply (gallery_inv_shown st), Hinv.
    apply (shown_before_query w st text).
Qed.

Lemma gallery_inv_startListening (w : World) (st : AppState) :
  gallery_inv st → gallery_inv (ui (run (startListening w) st)).
Proof.
  destruct (startListening_state w st) as (_ & _ & _ & _ & Himg & Hidx & _).
  by apply gallery_inv_frame.
Qed.

Lemma gallery_inv_step (a : Action) (st : AppState) :
  gallery_inv st → gallery_inv (step a st).
Proof.
  intros Hinv. destruct a as [w | | | | e |]; cbn [step].
  - unfold run, clickRecord. cbv [mbind M_bind bind get mret M_ret ret].
    destruct (isProcessing st); [done |].
    destruct (isListening st).
    + by apply gallery_inv_stopListening.
    + by apply gallery_inv_startListening.
  - by apply gallery_inv_clickPrevious.
  - by apply gallery_inv_clickNext.
  - revert Hinv. apply gallery_inv_frame;
      unfold_handler; by destruct (currentImage st).
  - destruct (isListening st); [| done].
    revert Hinv. apply gallery_inv_frame;
      unfold_handler; by destruct (0 <? blob_size e)%nat.
  - by destruct (isListening st).
Qed.

(** C8. The gallery invariant holds on mount, every action of the
    component preserves it, hence it holds in every reachable state; and a
    query stage that accepts its answer leaves the cursor at 0 on the
    images of that answer. *)
Theorem gallery_invariant :
  gallery_inv initialState
  ∧ (∀ (a : Action) (st : AppState), gallery_inv st → gallery_inv (step a st))
  ∧ (∀ st : AppState, reachable st → gallery_inv st)
  ∧ (∀ (w : World) (text : string) (st : AppState) (tr : list Event),
       queryFails (fetchApi w text) = false →
       let st' := ui (submitQuery w text st tr) in
       currentImageIndex st' = 0%Z
       ∧ ∃ resp story,
           fetchApi w text = inr resp
           ∧ json resp = inr (BodyFields story (JsArray (images st')))).
Proof.
  split; [by apply gallery_inv_reset |].
  split; [apply gallery_inv_step |].
  split.
  - induction 1 as [| a st _ IH]; [by apply gallery_inv_reset |].
    by apply gallery_inv_step.
  - intros w text st tr Hacc.
    destruct (submitQuery_run w text st tr)
      as [(Hfail & _) | (resp & story & items & Hfetch & _ & Hjson & _ & Hui & _)];
      [congruence |].
    cbv zeta. rewrite Hui. split; [done |]. by exists resp, story.
Qed.

Lemma gallery_invariant_witness :
  let w := mkWorld None false (λ _, None) (mkBlob [Byte.x01] "audio/webm")
             (λ _, inr (Some "beach photos from July"))
             (λ _, inr (mkHttpResponse 200
                (inr (BodyFields (JsString "Here are your beach memories")
                        (JsArray [photo 1 "a.jpg"; photo 2 "a.jpg"])))))
             (λ _, None) None true in
  let st := mkAppState true false "" (JsString "old story")
              [photo 7 "x.jpg"; photo 8 "y.jpg"; photo 9 "z.jpg"] 2 None
              (Some (mkMediaRecorder "audio/webm;codecs=opus")) [] in
  gallery_inv st
  ∧ gallery_inv (step (ClickRecord w) st)
  ∧ currentImageIndex (ui (submitQuery w "beach photos from July" st [])) = 0%Z
  ∧ currentImageIndex (step (ClickRecord w) st) = 0%Z.
Proof.
  intros w st.
  destruct gallery_invariant as (_ & Hstep & _ & Hreset).
  assert (gallery_inv st) as Hinv.
  { intros _. change (0 ≤ 2 < 3)%Z. lia. }
  split; [exact Hinv |].
  split; [exact (Hstep (ClickRecord w) st Hinv) |].
  split; [| reflexivity].
  exact (proj1 (Hreset w "beach photos from July" st [] eq_refl)).
Defined.

(** * Further properties *)

(** ** De-duplication, continued *)

Section DedupMore.
Implicit Types (seen : gset string) (imgs : list ImageMetadata).

(** On a list without repeated paths, none of them seen, the filter keeps
    everything. *)
Lemma filter_seen_id seen imgs :
  NoDup (image_path <$> imgs) →
  (∀ img, img ∈ imgs → image_path img ∉ seen) →
  filter_seen seen imgs = imgs.
Proof.
  revert seen. induction imgs as [| x rest IH]; intros seen Hnd Hfresh; [done |].
  cbn [filter_seen]. rewrite fmap_cons in Hnd.
  apply NoDup_cons in Hnd as [Hx Hnd].
  rewrite decide_False by (apply Hfresh; by left).
  f_equal. apply IH; [done |].
  intros img Himg Hin. apply elem_of_union in Hin as [Hin | Hin].
  - apply elem_of_singleton in Hin. apply Hx.
    rewrite <- Hin. by apply list_elem_of_fmap_2.
  - apply (Hfresh img); [by right | done].
Qed.

(** The paths the filter keeps are the paths of the input that were not
    seen before. *)
Lemma filter_seen_paths seen imgs (p : string) :
  p ∈ image_path <$> filter_seen seen imgs
  ↔ p ∈ image_path <$> imgs ∧ p ∉ seen.
Proof.
  revert seen. induction imgs as [| x rest IH]; intros seen; cbn [filter_seen].
  - rewrite fmap_nil. split; [intros H | intros [H _]]; by apply elem_of_nil in H.
  - destruct (decide (image_path x ∈ seen)) as [Hin | Hnin].
    + rewrite IH, fmap_cons, elem_of_cons. split; [tauto |].
      intros [[-> | Hp] Hs]; [contradiction | done].
    + rewrite !fmap_cons, !elem_of_cons, IH, elem_of_union, elem_of_singleton.
      split.
      * intros [-> | [Hp Hs]]; [tauto |]. split; [by right | tauto].
      * intros [[-> | Hp] Hs]; [by left |].
        destruct (decide (p = image_path x)) as [-> | Hne]; [by left |].
        right. split; [done |]. intros [? | ?]; done.
Qed.

Lemma filter_seen_sublist seen imgs :
  filter_seen seen imgs `sublist_of` imgs.
Proof.
  revert seen. induction imgs as [| x rest IH]; intros seen; cbn [filter_seen].
  - constructor.
  - destruct (decide (image_path x ∈ seen)).
    + apply sublist_cons, IH.
    + apply sublist_skip, IH.
Qed.
End DedupMore.

(** X1. De-duplicating twice is de-duplicating once. *)
Theorem uniqueImages_idempotent (imgs : list ImageMetadata) :
  uniqueImages (uniqueImages imgs) = uniqueImages imgs.
Proof.
  unfold uniqueImages at 1. apply filter_seen_id.
  - apply filter_seen_NoDup.
  - intros img _ H. by apply not_elem_of_empty in H.
Qed.

(** X2. The gallery is the image list with entries removed, the others in
    their order, and no path is lost: every path of the image list is
    the path of a gallery entry, and conversely. *)
Theorem uniqueImages_sublist_same_paths (imgs : list ImageMetadata) :
  uniqueImages imgs `sublist_of` imgs
  ∧ (length (uniqueImages imgs) ≤ length imgs)%nat
  ∧ ∀ p : string,
      p ∈ image_path <$> uniqueImages imgs ↔ p ∈ image_path <$> imgs.
Proof.
  split; [apply filter_seen_sublist |].
  split; [apply sublist_length, filter_seen_sublist |].
  intros p. unfold uniqueImages. rewrite filter_seen_paths.
  split; [tauto |]. intros Hp. split; [done |].
  intros H. by apply not_elem_of_empty in H.
Qed.

(** X3. De-duplication leaves the image list as it is exactly when no
    two of its entries carry the same path. *)
Theorem uniqueImages_fixed_iff_NoDup (imgs : list ImageMetadata) :
  uniqueImages imgs = imgs ↔ NoDup (image_path <$> imgs).
Proof.
  split.
  - intros <-. apply filter_seen_NoDup.
  - intros Hnd. apply filter_seen_id; [done |].
    intros img _ H. by apply not_elem_of_empty in H.
Qed.

(** X4. The first image of the response is the first image of the
    gallery; hence the gallery is empty, and not rendered, exactly when
    the response has no image. *)
Theorem uniqueImages_head (imgs : list ImageMetadata) :
  head (uniqueImages imgs) = head imgs
  ∧ (uniqueImages imgs = [] ↔ imgs = []).
Proof.
  destruct imgs as [| x rest]; [done |].
  unfold uniqueImages. cbn [filter_seen].
  rewrite decide_False by (intros H; by apply not_elem_of_empty in H).
  done.
Qed.

(** ** Path normalisation, continued *)

(** Prepending the prefix adds its eight characters. *)
Lemma displayRoot_prepended_length (p : string) :
  String.length (displayRoot +:+ p) = (8 + String.length p)%nat.
Proof. reflexivity. Qed.

(** X5. A path is left as it is exactly when it starts with [/images/];
    any other path grows by the eight characters of the prefix. *)
Theorem getImagePath_fixed_iff_rooted (p : string) :
  (getImagePath p = p ↔ String.prefix displayRoot p = true)
  ∧ (String.prefix displayRoot p = false →
     String.length (getImagePath p) = (8 + String.length p)%nat).
Proof.
  unfold getImagePath.
  destruct (String.prefix displayRoot p) eqn:Hp.
  - split; [done | discriminate].
  - split; [| intros _; apply displayRoot_prepended_length].
    split; [| discriminate]. intros Heq.
    apply (f_equal String.length) in Heq.
    rewrite displayRoot_prepended_length in Heq. lia.
Qed.

Lemma getImagePath_fixed_iff_rooted_witness :
  getImagePath "/images/a.jpg" = "/images/a.jpg"
  ∧ String.length (getImagePath "a.jpg") = 13%nat.
Proof.
  destruct (getImagePath_fixed_iff_rooted "/images/a.jpg") as [Hfix _].
  destruct (getImagePath_fixed_iff_rooted "a.jpg") as [_ Hlen].
  split; [apply Hfix; reflexivity | apply Hlen; reflexivity].
Defined.

(** ** The carousel, continued *)

(** X6. On a gallery of more than one image and a cursor in range,
    Previous undoes Next and Next undoes Previous. *)
Theorem clickPrevious_clickNext_inverse (st : AppState) :
  (1 < galleryCount st)%Z →
  (0 ≤ currentImageIndex st < galleryCount st)%Z →
  clickPrevious (clickNext st) = st ∧ clickNext (clickPrevious st) = st.
Proof.
  intros HN Hi.
  pose proof (with_currentImageIndex_same st) as Hsame.
  split.
  - rewrite <- Hsame at 1. rewrite clickNext_index by lia.
    rewrite clickPrevious_index by (done || (apply Z.mod_pos_bound; lia)).
    rewrite Zminus_mod_idemp_l.
    replace (currentImageIndex st + 1 - 1)%Z with (currentImageIndex st) by lia.
    by rewrite Z.mod_small.
  - rewrite <- Hsame at 1. rewrite clickPrevious_index by done.
    rewrite clickNext_index by (done || (apply Z.mod_pos_bound; lia)).
    rewrite Zplus_mod_idemp_l.
    replace (currentImageIndex st - 1 + 1)%Z with (currentImageIndex st) by lia.
    by rewrite Z.mod_small.
Qed.

Lemma clickPrevious_clickNext_inverse_witness :
  let st := mkAppState false false "" (JsString "story")
              [photo 1 "a.jpg"; photo 2 "b.jpg"; photo 3 "c.jpg"]
              2 None None [] in
  currentImageIndex (clickNext st) = 0%Z
  ∧ clickPrevious (clickNext st) = st
  ∧ clickNext (clickPrevious st) = st.
Proof.
  intros st. split; [reflexivity |].
  apply (clickPrevious_clickNext_inverse st);
    [reflexivity | change (0 ≤ 2 < 3)%Z; lia].
Defined.

(** X7. On an image list without repeated paths and with more than one
    entry, the unused helpers [nextImage] and [prevImage] compute what
    the two buttons compute. *)
Theorem nextImage_agrees_without_duplicates (st : AppState) :
  NoDup (image_path <$> images st) →
  (1 < length (images st))%nat →
  nextImage st = Some (clickNext st) ∧ prevImage st = Some (clickPrevious st).
Proof.
  intros Hnd Hlen.
  assert (uniqueImages (images st) = images st) as Huniq.
  { apply filter_seen_id; [done |].
    intros img _ H. by apply not_elem_of_empty in H. }
  assert (galleryCount st = Z.of_nat (length (images st))) as Hcount.
  { unfold galleryCount. by rewrite Huniq. }
  unfold nextImage, prevImage, clickNext, clickPrevious.
  rewrite (proj2 (navEnabled_iff st)) by lia.
  rewrite Hcount.
  destruct (Z.of_nat (length (images st)) =? 0)%Z eqn:Hz; [| done].
  apply Z.eqb_eq in Hz. lia.
Qed.

Lemma nextImage_agrees_without_duplicates_witness :
  let st := mkAppState false false "" (JsString "story")
              [photo 1 "a.jpg"; photo 2 "b.jpg"; photo 3 "c.jpg"]
              2 None None [] in
  nextImage st = Some (clickNext st) ∧ prevImage st = Some (clickPrevious st).
Proof.
  intros st. apply (nextImage_agrees_without_duplicates st).
  - vm_compute. repeat constructor; intros H;
      repeat (apply elem_of_cons in H as [H | H]; [discriminate H |]);
      by apply elem_of_nil in H.
  - vm_compute. lia.
Defined.

(** ** The rendered gallery *)

Lemma reachable_gallery_inv (st : AppState) :
  reachable st → gallery_inv st.
Proof.
  induction 1 as [| a st _ IH]; [by apply gallery_inv_reset |].
  by apply gallery_inv_step.
Qed.

(** Every gallery entry is an entry of the image list. *)
Lemma uniqueImages_elem_of (imgs : list ImageMetadata) (img : ImageMetadata) :
  img ∈ uniqueImages imgs → img ∈ imgs.
Proof. intros H. by apply filter_seen_fresh in H as [_ H]. Qed.

(** X8. In every reachable state with a non-empty gallery the entry at
    the cursor exists and is one of the stored images: the render never
    reads past the end of [uniqueImages]. *)
Theorem displayed_image_exists (st : AppState) :
  reachable st → uniqueImages (images st) ≠ [] →
  ∃ img, currentImage st = Some img ∧ img ∈ images st.
Proof.
  intros Hreach Hne.
  destruct (reachable_gallery_inv st Hreach Hne) as [H0 Hlt].
  unfold currentImage.
  rewrite (proj2 (Z.ltb_ge _ _)) by done.
  unfold galleryCount in Hlt.
  destruct (lookup_lt_is_Some_2 (uniqueImages (images st))
              (Z.to_nat (currentImageIndex st))) as [img Himg]; [lia |].
  exists img. split; [done |].
  apply uniqueImages_elem_of. by apply list_elem_of_lookup_2 in Himg.
Qed.

Lemma displayed_image_exists_witness :
  let w := mkWorld None false (λ _, None) (mkBlob [Byte.x01] "audio/webm")
             (λ _, inr (Some "beach photos from July"))
             (λ _, inr (mkHttpResponse 200
                (inr (BodyFields (JsString "Here are your beach memories")
                        (JsArray [photo 1 "a.jpg"; photo 2 "b.jpg"])))))
             (λ _, None) None true in
  let st := step ClickNext (step (ClickRecord w) (step (ClickRecord w) initialState)) in
  reachable st
  ∧ uniqueImages (images st) ≠ []
  ∧ ∃ img, currentImage st = Some img ∧ img ∈ images st.
Proof.
  intros w st.
  assert (reachable st) as Hreach
    by (do 3 apply reachable_step; apply reachable_init).
  assert (uniqueImages (images st) ≠ []) as Hne by (vm_compute; discriminate).
  split; [exact Hreach |]. split; [exact Hne |].
  exact (displayed_image_exists st Hreach Hne).
Defined.

(** X9. The preload creates one element per gallery entry, each with an
    address under [/images/], and the address of the displayed image is
    always among them. *)
Theorem preload_covers_display (st : AppState) :
  length (preloadSources st) = length (uniqueImages (images st))
  ∧ Forall (λ src, String.prefix displayRoot src = true) (preloadSources st)
  ∧ ∀ src, displayedSrc st = Some src → src ∈ preloadSources st.
Proof.
  unfold preloadSources, displayedSrc, galleryCount.
  destruct (uniqueImages (images st)) as [| x rest] eqn:Huniq.
  - cbn. repeat split; [constructor | discriminate].
  - replace (0 <? Z.of_nat (length (x :: rest)))%Z with true
      by (symmetry; apply Z.ltb_lt; cbn [length]; lia).
    split; [by rewrite length_fmap |].
    split.
    + apply Forall_fmap, Forall_forall. intros img _.
      assert (Hroot : ∀ p, String.prefix displayRoot (getImagePath p) = true).
      { intros p. unfold getImagePath.
        destruct (String.prefix displayRoot p) eqn:Hp; [done |].
        apply displayRoot_prefix_prepended. }
      apply Hroot.
    + intros src Hsrc. unfold currentImage in Hsrc. rewrite Huniq in Hsrc.
      destruct (currentImageIndex st <? 0)%Z; [discriminate |].
      destruct ((x :: rest) !! Z.to_nat (currentImageIndex st)) as [img |] eqn:Himg;
        [| discriminate].
      injection Hsrc as <-.
      apply (list_elem_of_fmap_2 (λ img, getImagePath (image_path img))).
      by apply list_elem_of_lookup_2 in Himg.
Qed.

Lemma preload_covers_display_witness :
  let st := mkAppState false false "" (JsString "story")
              [photo 1 "a.jpg"; photo 2 "/images/b.jpg"; photo 3 "a.jpg"]
              1 None None [] in
  displayedSrc st = Some "/images/b.jpg"
  ∧ "/images/b.jpg" ∈ preloadSources st
  ∧ length (preloadSources st) = 2%nat.
Proof.
  intros st.
  destruct (preload_covers_display st) as (Hlen & _ & Hshown).
  split; [reflexivity |].
  split; [apply Hshown; reflexivity | exact Hlen].
Defined.

(** ** Image display failures *)

(** X10. A failing image never costs more than a warning: [onImageError]
    returns, shows no error toast and leaves everything but the
    image-error message as it was; when an image is displayed, the message
    and the one warning toast name its normalised path. *)
Theorem onImageError_only_warns (st : AppState) :
  let r := run onImageError st in
  result r = Returned tt
  ∧ with_imageLoadError (imageLoadError st) (ui r) = st
  ∧ Forall (λ ev, isWarningToast ev = true) (trace r)
  ∧ ∀ img, currentImage st = Some img →
      imageLoadError (ui r)
      = Some ("Failed to load image: " +:+ getImagePath (image_path img))
      ∧ trace r
        = [Toast StatusWarning "Image Load Error"
             ("Could not load image at: " +:+ getImagePath (image_path img)
                +:+ ". Check if the image exists and the path is correct.")].
Proof.
  unfold_handler.
  destruct (currentImage st) as [img |]; reduce_run.
  - split; [done |]. split; [by destruct st |].
    split; [repeat constructor |].
    intros img' Himg'. by injection Himg' as <-.
  - split; [done |]. split; [by destruct st |].
    split; [constructor | discriminate].
Qed.

Lemma onImageError_only_warns_witness :
  let st := mkAppState false false "" (JsString "story")
              [photo 1 "a.jpg"; photo 2 "/images/b.jpg"] 1 None None [] in
  currentImage st = Some (photo 2 "/images/b.jpg")
  ∧ imageLoadError (ui (run onImageError st))
    = Some "Failed to load image: /images/b.jpg".
Proof.
  intros st. split; [reflexivity |].
  destruct (onImageError_only_warns st) as (_ & _ & _ & Himg).
  exact (proj1 (Himg (photo 2 "/images/b.jpg") eq_refl)).
Defined.

(** ** Start, continued *)

(** The two runs of [startListening]. *)
Lemma startListening_run (w : World) (st : AppState) :
  let r := run (startListening w) st in
  let cleared := with_isProcessing false
                   (with_response (JsString "")
                      (with_transcript "" (with_chunksRef [] st))) in
  (getUserMedia w = None ∧ newMediaRecorder w (chosenMime w) = None
   ∧ r = mkRun (Returned tt)
           (with_isListening true
              (with_mediaRecorderRef (Some (mkMediaRecorder (chosenMime w)))
                 cleared))
           [GetUserMedia; RecorderStart (chosenMime w)])
  ∨ ((getUserMedia w ≠ None ∨ newMediaRecorder w (chosenMime w) ≠ None)
     ∧ r = mkRun (Returned tt) cleared
             [GetUserMedia;
              Toast StatusError "Error"
                "Failed to start recording. Please check your microphone permissions."]).
Proof.
  unfold chosenMime. unfold_handler.
  destruct (getUserMedia w); reduce_run; [right; split; [by left | done] |].
  destruct (newMediaRecorder w _); reduce_run;
    [right; split; [by right | done] | by left].
Qed.

(** X11. [startListening] never throws, makes no network call and never
    releases a track.  It ends listening, with a recorder of the chosen
    MIME type and an empty chunk buffer, exactly when the microphone is
    acquired and the recorder is built; in every other case it shows the
    one error toast and leaves the listening flag and the recorder as
    they were. *)
Theorem startListening_outcome (w : World) (st : AppState) :
  let r := run (startListening w) st in
  let granted := getUserMedia w = None ∧ newMediaRecorder w (chosenMime w) = None in
  result r = Returned tt
  ∧ Forall (λ ev, isNetworkCall ev = false ∧ ev ≠ TrackStop) (trace r)
  ∧ (granted →
       isListening (ui r) = true
       ∧ mediaRecorderRef (ui r) = Some (mkMediaRecorder (chosenMime w))
       ∧ chunksRef (ui r) = []
       ∧ trace r = [GetUserMedia; RecorderStart (chosenMime w)])
  ∧ (¬ granted →
       isListening (ui r) = isListening st
       ∧ mediaRecorderRef (ui r) = mediaRecorderRef st
       ∧ trace r = [GetUserMedia;
                    Toast StatusError "Error"
                      "Failed to start recording. Please check your microphone permissions."]).
Proof.
  intros r granted. subst r granted.
  destruct (startListening_run w st) as [(Hmic & Hrec & ->) | (Hno & ->)];
    reduce_run.
  - split; [done |].
    split; [repeat (constructor; [by split |]); constructor |].
    split; [done |]. by intros [].
  - split; [done |].
    split; [repeat (constructor; [by split |]); constructor |].
    split; [| done]. intros [Hmic Hrec]. destruct Hno; contradiction.
Qed.

Lemma startListening_outcome_witness :
  let granted := mkWorld None true (λ _, None) (mkBlob [] "") (λ _, inr None)
                   (λ _, inl NotAnError) (λ _, None) None false in
  let unbuilt := mkWorld None false (λ _, Some (ErrorOf "NotSupportedError"))
                   (mkBlob [] "") (λ _, inr None) (λ _, inl NotAnError)
                   (λ _, None) None false in
  mediaRecorderRef (ui (run (startListening granted) initialState))
    = Some (mkMediaRecorder "audio/mp3")
  ∧ isListening (ui (run (startListening unbuilt) initialState)) = false.
Proof.
  intros granted unbuilt. split.
  - destruct (startListening_outcome granted initialState) as (_ & _ & Hok & _).
    destruct Hok as (_ & Hrec & _); [split; reflexivity | exact Hrec].
  - destruct (startListening_outcome unbuilt initialState) as (_ & _ & _ & Hno).
    destruct Hno as (Hl & _); [intros [_ H]; discriminate H | exact Hl].
Defined.

(** ** The chunk buffer *)

Lemma ondataavailable_state (e : Blob) (st : AppState) :
  ui (run (ondataavailable e) st)
  = with_chunksRef (chunksRef st ++ (if (0 <? blob_size e)%nat then [e] else [])) st.
Proof.
  unfold_handler. destruct (0 <? blob_size e)%nat; reduce_run; [done |].
  rewrite app_nil_r. by destruct st.
Qed.

Lemma deliver_state (es : list Blob) (st : AppState) :
  deliver es st
  = with_chunksRef
      (chunksRef st ++ filter (λ e, (0 <? blob_size e)%nat = true) es) st.
Proof.
  unfold deliver. revert st. induction es as [| e es IH]; intros st.
  - cbn. rewrite app_nil_r. by destruct st.
  - cbn [foldl]. rewrite IH, ondataavailable_state.
    cbn [chunksRef with_chunksRef]. rewrite filter_cons.
    destruct (0 <? blob_size e)%nat eqn:He.
    + rewrite decide_True by done. by rewrite <- app_assoc.
    + rewrite decide_False by done. by rewrite app_nil_r.
Qed.

(** The bytes of the non-empty chunks are the bytes of all chunks. *)
Lemma bytes_nonempty_chunks (es : list Blob) :
  mjoin (blob_bytes <$> filter (λ e, (0 <? blob_size e)%nat = true) es)
  = mjoin (blob_bytes <$> es).
Proof.
  induction es as [| e es IH]; [done |].
  rewrite filter_cons. destruct (0 <? blob_size e)%nat eqn:He.
  - rewrite decide_True by done. rewrite !fmap_cons.
    change (blob_bytes e ++ mjoin (blob_bytes <$>
              filter (λ e, (0 <? blob_size e)%nat = true) es)
            = blob_bytes e ++ mjoin (blob_bytes <$> es)).
    by rewrite IH.
  - rewrite decide_False by done. rewrite IH, fmap_cons.
    change (mjoin (blob_bytes <$> es)
            = blob_bytes e ++ mjoin (blob_bytes <$> es)).
    apply Nat.ltb_ge in He. unfold blob_size in He.
    destruct (blob_bytes e); [done | cbn in He; lia].
Qed.

(** X12. The recorder's chunks are buffered in the order of their
    arrival, the empty ones dropped, with nothing else in the state
    touched; no byte of the audio is lost by the dropping. *)
Theorem deliver_buffers_in_order (es : list Blob) (st : AppState) :
  chunksRef (deliver es st)
    = chunksRef st ++ filter (λ e, (0 <? blob_size e)%nat = true) es
  ∧ with_chunksRef (chunksRef st) (deliver es st) = st
  ∧ mjoin (blob_bytes <$> chunksRef (deliver es st))
    = mjoin (blob_bytes <$> chunksRef st) ++ mjoin (blob_bytes <$> es).
Proof.
  rewrite deliver_state. cbn [chunksRef with_chunksRef].
  split; [done |]. split; [by destruct st |].
  by rewrite fmap_app, join_app, bytes_nonempty_chunks.
Qed.

(** ** Stop, continued *)

(** The bytes handed to transcription are those of the chunk buffer
    followed by those delivered on stop. *)
Lemma recording_bytes (w : World) (rec : MediaRecorder) (st : AppState) :
  blob_bytes (recording w rec st)
  = mjoin (blob_bytes <$> chunksRef st) ++ blob_bytes (flushed w).
Proof.
  unfold recording, newBlob. cbn [blob_bytes].
  unfold atStop. unfold_handler.
  destruct (0 <? blob_size (flushed w))%nat eqn:He; reduce_run;
    cbn [chunksRef with_chunksRef with_isProcessing with_isListening].
  - rewrite fmap_app, join_app. cbn. by rewrite app_nil_r.
  - apply Nat.ltb_ge in He. unfold blob_size in He.
    destruct (blob_bytes (flushed w)); [by rewrite app_nil_r | cbn in He; lia].
Qed.

(** What the query stage leaves alone. *)
Lemma submitQuery_frame (w : World) (text : string) (st : AppState)
    (tr : list Event) :
  let q := submitQuery w text st tr in
  isListening (ui q) = isListening st
  ∧ isProcessing (ui q) = isProcessing st
  ∧ transcript (ui q) = transcript st
  ∧ mediaRecorderRef (ui q) = mediaRecorderRef st
  ∧ chunksRef (ui q) = chunksRef st.
Proof.
  destruct (submitQuery_run w text st tr)
    as [(_ & _ & Hui & _) | (resp & story & items & _ & _ & _ & _ & Hui & _)];
    cbv zeta; rewrite Hui; done.
Qed.

(** The events of the query stage: the request, and after an accepted
    answer the synthesis call followed by events that are neither network
    calls nor error toasts. *)
Lemma submitQuery_events (w : World) (text : string) (st : AppState)
    (tr : list Event) :
  let q := submitQuery w text st tr in
  ((∃ e, result q = Threw e) ∧ trace q = tr ++ [Fetch text])
  ∨ (result q = Returned tt
     ∧ ∃ story rest,
         trace q = tr ++ Fetch text :: SpeechCreate story :: rest
         ∧ Forall (λ ev, isNetworkCall ev = false ∧ isErrorToast ev = false) rest).
Proof.
  destruct (submitQuery_run w text st tr)
    as [(_ & He & _ & Htr) | (resp & story & items & _ & _ & _ & Hres & _ & Htr)];
    [left; done |].
  right. split; [done |].
  destruct (speakResponse_run w story st (tr ++ [Fetch text])) as (_ & _ & Hsp).
  cbv zeta in Htr, Hsp. rewrite Hsp in Htr.
  eexists story, _. split; [rewrite Htr, <- app_assoc; reflexivity |].
  unfold fallbackEvents.
  destruct (speechCreate w story), (audioPlay w), (hasSpeechSynthesis w);
    repeat (constructor; [by split |]); constructor.
Qed.

(** The traces of [stopListening] on a live session. *)
Lemma stopListening_events (w : World) (st : AppState) (rec : MediaRecorder) :
  mediaRecorderRef st = Some rec → isListening st = true →
  let r := run (stopListening w) st in
  let blob := recording w rec st in
  (blob_size blob = 0%nat
   ∧ trace r = [RecorderStop; TrackStop;
                Toast StatusError "Error" "No audio data recorded"; TrackStop])
  ∨ (blob_size blob ≠ 0%nat
     ∧ transcriptionFails (transcribe w blob) = true
     ∧ ∃ msg, trace r = [RecorderStop; TrackStop; Transcribe blob;
                         Toast StatusError "Error" msg; TrackStop])
  ∨ (∃ text, blob_size blob ≠ 0%nat
     ∧ transcribe w blob = inr (Some text) ∧ text ≠ ""
     ∧ transcript (ui r) = text
     ∧ ((∃ msg, trace r = [RecorderStop; TrackStop; Transcribe blob; Fetch text;
                           Toast StatusError "Error" msg; TrackStop])
        ∨ (∃ story rest,
             trace r = [RecorderStop; TrackStop; Transcribe blob; Fetch text;
                        SpeechCreate story] ++ rest ++ [TrackStop]
             ∧ Forall (λ ev, isNetworkCall ev = false ∧ isErrorToast ev = false)
                 rest))).
Proof.
  intros Hrec Hlive r blob.
  destruct (stopListening_run w st) as [_ Hrun]. fold r in Hrun.
  destruct Hrun as
    [([Hnone | Hidle] & _)
    | (rec' & Hrec' & _ & [(Hempty & _ & Htr)
                          | [(Hsize & Hfail & _ & msg & Htr)
                            | (text & Hsize & Htext & Hne & Hui & Htr)]])];
    try congruence;
    rewrite Hrec in Hrec'; injection Hrec' as <-.
  - left. done.
  - right. left. eauto.
  - right. right. exists text. fold blob in Htext, Hui, Htr.
    destruct (submitQuery_frame w text (with_transcript text (atStop w st))
                [RecorderStop; TrackStop; Transcribe blob])
      as (_ & _ & Htrans & _).
    cbv zeta in Hui, Htr, Htrans.
    do 3 (split; [done |]).
    split; [by rewrite Hui |].
    destruct (submitQuery_events w text (with_transcript text (atStop w st))
                [RecorderStop; TrackStop; Transcribe blob])
      as [([e He] & Hq) | (Hres & story & rest & Hq & Hrest)];
      cbv zeta in *.
    + left. rewrite Htr, He, Hq. eauto.
    + right. exists story, rest. split; [| done].
      rewrite Htr, Hres, Hq. cbn [app]. done.
Qed.

(** Lower case keeps a character in the printable range and does nothing
    to a character that is in lower case already. *)
Lemma asciiLower_printable (c : Ascii.ascii) :
  isPrintable c = true →
  isPrintable (asciiLower c) = true ∧ asciiLower (asciiLower c) = asciiLower c.
Proof.
  destruct c as [[] [] [] [] [] [] [] []]; vm_compute; intros Hrange;
    first [discriminate Hrange | split; reflexivity].
Qed.

Lemma toLower_printable (s : string) :
  allPrintable s = true →
  allPrintable (toLower s) = true ∧ toLower (toLower s) = toLower s.
Proof.
  induction s as [| c s IH]; [done |].
  cbn [allPrintable toLower]. intros Hs.
  apply andb_true_iff in Hs as [Hc Hs].
  destruct (asciiLower_printable c Hc) as [Hc1 Hc2].
  destruct (IH Hs) as [Hs1 Hs2].
  by rewrite Hc1, Hc2, Hs1, Hs2.
Qed.

(** A type that a [Blob] carries is left as it is when a [Blob] or a
    [File] is built with it again. *)
Lemma normalizeType_idempotent (t : string) :
  normalizeType (normalizeType t) = normalizeType t.
Proof.
  unfold normalizeType.
  destruct (allPrintable t) eqn:Ht; [| reflexivity].
  destruct (toLower_printable t Ht) as [Hp Hl].
  by rewrite Hp, Hl.
Qed.

(** X13. The audio handed to the transcription service is the
    concatenation, in order, of the chunks buffered during the session
    and of the data delivered on stop.  Its type is the recorder's MIME
    type, or [audio/webm;codecs=opus] when the recorder reports none, as
    [new Blob] stores it: in ASCII lower case, and empty when it has a
    character outside U+0020 to U+007E; the [File] built from the blob
    with that type has the same type.  The transcription request comes
    right after the recorder is stopped and the tracks are released. *)
Theorem recording_is_concatenation (w : World) (st : AppState)
    (rec : MediaRecorder) :
  mediaRecorderRef st = Some rec → isListening st = true →
  mjoin (blob_bytes <$> chunksRef st) ++ blob_bytes (flushed w) ≠ [] →
  let audio := mkBlob (mjoin (blob_bytes <$> chunksRef st) ++ blob_bytes (flushed w))
                 (normalizeType
                    (if String.eqb (mimeType rec) "" then fallbackMime
                     else mimeType rec)) in
  (∃ rest, trace (run (stopListening w) st)
           = RecorderStop :: TrackStop :: Transcribe audio :: rest)
  ∧ normalizeType (blob_type audio) = blob_type audio.
Proof.
  intros Hrec Hlive Hbytes audio.
  split; [| apply normalizeType_idempotent].
  assert (recording w rec st = audio) as Haudio.
  { unfold audio. rewrite <- (recording_bytes w rec st). reflexivity. }
  destruct (stopListening_events w st rec Hrec Hlive)
    as [(Hempty & _)
       | [(_ & _ & msg & Htr)
         | (text & _ & _ & _ & _ & [(msg & Htr) | (story & rest & Htr & _)])]];
    cbv zeta in *; rewrite ?Haudio in *.
  - exfalso. apply Hbytes. unfold blob_size, audio in Hempty. cbn in Hempty.
    by destruct (mjoin (blob_bytes <$> chunksRef st) ++ blob_bytes (flushed w)).
  - rewrite Htr. eauto.
  - rewrite Htr. eauto.
  - rewrite Htr. cbn [app]. eauto.
Qed.

Lemma recording_is_concatenation_witness :
  let w := mkWorld None false (λ _, None) (mkBlob [Byte.x03] "audio/webm")
             (λ _, inr None) (λ _, inl NotAnError) (λ _, None) None false in
  let st := mkAppState true false "" (JsString "") [] 0 None
              (Some (mkMediaRecorder "audio/WEBM;codecs=Opus"))
              [mkBlob [Byte.x01] "audio/webm"; mkBlob [Byte.x02] "audio/webm"] in
  ∃ rest, trace (run (stopListening w) st)
          = RecorderStop :: TrackStop
            :: Transcribe (mkBlob [Byte.x01; Byte.x02; Byte.x03]
                             "audio/webm;codecs=opus")
            :: rest.
Proof.
  intros w st.
  apply (recording_is_concatenation w st (mkMediaRecorder "audio/WEBM;codecs=Opus"));
    [reflexivity | reflexivity | discriminate].
Defined.

(** X14. An empty recording ends the run before any network call: with
    no byte in the chunk buffer and none delivered on stop, the handler
    shows the error "No audio data recorded", releases the tracks, and
    leaves narrative, images, cursor and transcript as they were. *)
Theorem empty_recording_stops (w : World) (st : AppState) (rec : MediaRecorder) :
  mediaRecorderRef st = Some rec → isListening st = true →
  mjoin (blob_bytes <$> chunksRef st) = [] → blob_bytes (flushed w) = [] →
  let r := run (stopListening w) st in
  trace r = [RecorderStop; TrackStop;
             Toast StatusError "Error" "No audio data recorded"; TrackStop]
  ∧ shown (ui r) = shown st
  ∧ transcript (ui r) = transcript st
  ∧ isProcessing (ui r) = false.
Proof.
  intros Hrec Hlive Hbuf Hflush r.
  assert (blob_size (recording w rec st) = 0%nat) as Hsize.
  { unfold blob_size. by rewrite recording_bytes, Hbuf, Hflush. }
  destruct (stopListening_run w st) as [_ Hrun]. fold r in Hrun.
  destruct Hrun as
    [([Hnone | Hidle] & _)
    | (rec' & Hrec' & _ & [(_ & Hui & Htr)
                          | [(Hne & _)
                            | (text & Hne & _)]])];
    try congruence;
    rewrite Hrec in Hrec'; injection Hrec' as <-; try contradiction.
  rewrite Hui, Htr, shown_after_capture. repeat split.
  unfold atStop. unfold_handler.
  by destruct (0 <? blob_size (flushed w))%nat.
Qed.

Lemma empty_recording_stops_witness :
  let w := mkWorld None false (λ _, None) (mkBlob [] "audio/webm")
             (λ _, inr (Some "never asked")) (λ _, inl NotAnError)
             (λ _, None) None false in
  let st := mkAppState true false "old question" (JsString "old story")
              [photo 1 "a.jpg"] 0 None
              (Some (mkMediaRecorder "audio/mp3")) [] in
  trace (run (stopListening w) st)
  = [RecorderStop; TrackStop;
     Toast StatusError "Error" "No audio data recorded"; TrackStop].
Proof.
  intros w st.
  apply (empty_recording_stops w st (mkMediaRecorder "audio/mp3"));
    reflexivity.
Defined.

Lemma filter_none {A} (f : A → bool) (l : list A) :
  Forall (λ x, f x = false) l → filter (λ x, f x = true) l = [].
Proof.
  induction 1 as [| x l Hx _ IH]; [done |].
  rewrite filter_cons, decide_False by (rewrite Hx; discriminate). done.
Qed.

(** X15. [stopListening] never throws.  Without a live session (no
    recorder, or not listening) it does nothing at all.  On a live session,
    whatever the collaborators answer, it first stops the recorder and
    releases the tracks, and it ends with both flags off and the recorder
    kept. *)
Theorem stopListening_always_releases (w : World) (st : AppState) :
  let r := run (stopListening w) st in
  result r = Returned tt
  ∧ (mediaRecorderRef st = None ∨ isListening st = false →
     ui r = st ∧ trace r = [])
  ∧ (is_Some (mediaRecorderRef st) → isListening st = true →
     isListening (ui r) = false
     ∧ isProcessing (ui r) = false
     ∧ mediaRecorderRef (ui r) = mediaRecorderRef st
     ∧ ∃ rest, trace r = RecorderStop :: TrackStop :: rest).
Proof.
  intros r. destruct (stopListening_run w st) as [Hres Hrun]. fold r in Hres, Hrun.
  split; [done |].
  assert (Hstop : isListening (atStop w st) = false
                  ∧ mediaRecorderRef (atStop w st) = mediaRecorderRef st).
  { unfold atStop. unfold_handler.
    by destruct (0 <? blob_size (flushed w))%nat. }
  destruct Hstop as [Hl Hm].
  destruct Hrun as
    [(Hidle & Hui & Htr)
    | (rec & Hrec & Hlive & [(_ & Hui & Htr)
                            | [(_ & _ & Hui & msg & Htr)
                              | (text & _ & _ & _ & Hui & Htr)]])].
  - split; [done |]. intros [rec Hrec] Hlive. destruct Hidle; congruence.
  - split; [intros [? | ?]; congruence |]. intros _ _.
    rewrite Hui, Htr. cbn. rewrite Hl, Hm. eauto 6.
  - split; [intros [? | ?]; congruence |]. intros _ _.
    rewrite Hui, Htr. cbn. rewrite Hl, Hm. eauto 6.
  - split; [intros [? | ?]; congruence |]. intros _ _.
    destruct (submitQuery_frame w text (with_transcript text (atStop w st))
                [RecorderStop; TrackStop; Transcribe (recording w rec st)])
      as (Hql & _ & _ & Hqm & _).
    destruct (submitQuery_events w text (with_transcript text (atStop w st))
                [RecorderStop; TrackStop; Transcribe (recording w rec st)])
      as [(_ & Hs) | (_ & story & rest & Hs & _)];
      cbv zeta in *; rewrite Hui, Htr, Hs;
      cbn [isListening isProcessing mediaRecorderRef with_isProcessing app];
      rewrite Hql, Hqm; cbn [isListening mediaRecorderRef with_transcript];
      rewrite Hl, Hm; eauto 6.
Qed.

Lemma stopListening_always_releases_witness :
  let w := mkWorld None false (λ _, None) (mkBlob [Byte.x01] "audio/webm")
             (λ _, inl (ErrorOf "Connection error."))
             (λ _, inl NotAnError) (λ _, None) None false in
  let idle := initialState in
  let live := mkAppState true false "" (JsString "") [] 0 None
                (Some (mkMediaRecorder "audio/mp3")) [] in
  trace (run (stopListening w) idle) = []
  ∧ isProcessing (ui (run (stopListening w) live)) = false
  ∧ isListening (ui (run (stopListening w) live)) = false.
Proof.
  intros w idle live.
  destruct (stopListening_always_releases w idle) as (_ & Hidle & _).
  destruct (stopListening_always_releases w live) as (_ & _ & Hlive).
  split; [exact (proj2 (Hidle (or_introl eq_refl))) |].
  destruct Hlive as (Hl & Hp & _); [by eexists | reflexivity |].
  split; [exact Hp | exact Hl].
Defined.

(** A request in the trace comes from a live session whose audio was
    transcribed to the non-empty query of that request, and the run ends
    as the query stage leaves it. *)
Lemma stopListening_fetch (w : World) (st : AppState) (q : string) :
  let r := run (stopListening w) st in
  Fetch q ∈ trace r →
  ∃ rec, mediaRecorderRef st = Some rec ∧ isListening st = true
    ∧ transcribe w (recording w rec st) = inr (Some q) ∧ q ≠ ""
    ∧ let stage := submitQuery w q (with_transcript q (atStop w st))
                     [RecorderStop; TrackStop; Transcribe (recording w rec st)] in
      ui r = with_isProcessing false (ui stage)
      ∧ trace r = trace stage
          ++ match result stage with
             | Returned _ => []
             | Threw e =>
                 [Toast StatusError "Error"
                    (messageOr "Failed to process your query" e)]
             end
          ++ [TrackStop].
Proof.
  intros r Hq.
  destruct (stopListening_run w st) as [_ Hrun]. fold r in Hrun.
  destruct Hrun as
    [(_ & _ & Htr)
    | (rec & Hrec & Hlive & [(_ & _ & Htr)
                            | [(_ & _ & _ & msg & Htr)
                              | (text & _ & Htext & Hne & Hui & Htr)]])].
  1-3: rewrite Htr in Hq; absurd_in_list Hq.
  assert (q = text) as ->; [| by exists rec].
  destruct (submitQuery_events w text (with_transcript text (atStop w st))
              [RecorderStop; TrackStop; Transcribe (recording w rec st)])
    as [([e He] & Hs) | (Hres & story & rest & Hs & Hrest)];
    cbv zeta in *; rewrite Htr, Hs, ?He, ?Hres in Hq; cbn [app] in Hq.
  - do 3 (apply elem_of_cons in Hq as [Hq | Hq]; [discriminate Hq |]).
    apply elem_of_cons in Hq as [Hq | Hq]; [by injection Hq |].
    absurd_in_list Hq.
  - do 3 (apply elem_of_cons in Hq as [Hq | Hq]; [discriminate Hq |]).
    apply elem_of_cons in Hq as [Hq | Hq]; [by injection Hq |].
    apply elem_of_cons in Hq as [Hq | Hq]; [discriminate Hq |].
    apply elem_of_app in Hq as [Hq | Hq]; [| absurd_in_list Hq].
    rewrite Forall_forall in Hrest. by destruct (Hrest _ Hq).
Qed.

(** X16. The backend is never asked an empty question, and what it is
    asked is what the page then shows as the question: a request with
    query [q] in the trace means that [q] is the non-empty text the
    transcription gave for the audio sent to it, and that the transcript
    is [q] at the end of the run. *)
Theorem query_is_transcript (w : World) (st : AppState) (q : string) :
  let r := run (stopListening w) st in
  Fetch q ∈ trace r →
  q ≠ ""
  ∧ transcript (ui r) = q
  ∧ ∃ audio, Transcribe audio ∈ trace r ∧ transcribe w audio = inr (Some q).
Proof.
  intros r Hq.
  destruct (stopListening_fetch w st q Hq)
    as (rec & Hrec & Hlive & Htext & Hne & Hui & Htr).
  fold r in Hui, Htr. cbv zeta in Hui, Htr.
  destruct (submitQuery_frame w q (with_transcript q (atStop w st))
              [RecorderStop; TrackStop; Transcribe (recording w rec st)])
    as (_ & _ & Htrans & _).
  cbv zeta in Htrans.
  split; [done |]. split; [by rewrite Hui |].
  exists (recording w rec st). split; [| done].
  rewrite Htr. apply elem_of_app. left.
  destruct (submitQuery_events w q (with_transcript q (atStop w st))
              [RecorderStop; TrackStop; Transcribe (recording w rec st)])
    as [(_ & Hs) | (_ & story & rest & Hs & _)];
    cbv zeta in Hs; rewrite Hs; cbn [app];
    do 2 apply list_elem_of_further; apply list_elem_of_here.
Qed.

Lemma query_is_transcript_witness :
  let w := mkWorld None false (λ _, None) (mkBlob [Byte.x01] "audio/webm")
             (λ _, inr (Some "beach photos from July"))
             (λ _, inr (mkHttpResponse 500 (inl NotAnError)))
             (λ _, None) None false in
  let st := mkAppState true false "" (JsString "") [] 0 None
              (Some (mkMediaRecorder "audio/mp3")) [] in
  Fetch "beach photos from July" ∈ trace (run (stopListening w) st)
  ∧ transcript (ui (run (stopListening w) st)) = "beach photos from July".
Proof.
  intros w st.
  assert (Fetch "beach photos from July" ∈ trace (run (stopListening w) st))
    as Hin by (vm_compute; do 3 right; left).
  split; [exact Hin |].
  exact (proj1 (proj2 (query_is_transcript w st _ Hin))).
Defined.

(** X17. The remote calls of one run are made one after the other and
    each at most once: the network calls in the trace are, in this order,
    the transcription, then the query, then the synthesis, cut off after
    the stage that failed. *)
Theorem network_calls_in_sequence (w : World) (st : AppState) :
  let calls := filter (λ ev, isNetworkCall ev = true)
                 (trace (run (stopListening w) st)) in
  calls = []
  ∨ (∃ audio, calls = [Transcribe audio])
  ∨ (∃ audio q, calls = [Transcribe audio; Fetch q])
  ∨ (∃ audio q text, calls = [Transcribe audio; Fetch q; SpeechCreate text]).
Proof.
  intros calls. subst calls.
  destruct (stopListening_run w st) as [_ Hrun].
  destruct Hrun as [(_ & _ & Htr) | (rec & Hrec & Hlive & _)].
  { rewrite Htr. by left. }
  destruct (stopListening_events w st rec Hrec Hlive)
    as [(_ & Htr)
       | [(_ & _ & msg & Htr)
         | (text & _ & _ & _ & _ & [(msg & Htr) | (story & rest & Htr & Hrest)])]];
    cbv zeta in Htr; rewrite Htr.
  - by left.
  - right. left. by eexists.
  - right. right. left. by eexists _, _.
  - right. right. right. exists (recording w rec st), text, story.
    rewrite !filter_app.
    rewrite (filter_none isNetworkCall rest)
      by (eapply Forall_impl; [exact Hrest | by intros ? []]).
    reflexivity.
Qed.

(** X18. A run of a live session reports a failure once and only when
    nothing is played: the trace holds at most one error toast, and it
    holds none exactly when the synthesis of the narrative was
    requested. *)
Theorem one_error_toast_or_playback (w : World) (st : AppState) :
  is_Some (mediaRecorderRef st) → isListening st = true →
  let r := run (stopListening w) st in
  let errors := filter (λ ev, isErrorToast ev = true) (trace r) in
  (length errors ≤ 1)%nat
  ∧ (errors = [] ↔ ∃ text, SpeechCreate text ∈ trace r).
Proof.
  intros [rec Hrec] Hlive r errors. subst errors r.
  destruct (stopListening_events w st rec Hrec Hlive)
    as [(_ & Htr)
       | [(_ & _ & msg & Htr)
         | (text & _ & _ & _ & _ & [(msg & Htr) | (story & rest & Htr & Hrest)])]];
    cbv zeta in Htr; rewrite Htr.
  1-3: split; [exact (le_n 1) |]; split; [discriminate |];
       intros [s Hs]; absurd_in_list Hs.
  rewrite !filter_app.
  rewrite (filter_none isErrorToast rest)
    by (eapply Forall_impl; [exact Hrest | by intros ? []]).
  split; [exact (le_S _ _ (le_n 0)) |]. split; [| done]. intros _. exists story.
  do 4 apply list_elem_of_further. apply list_elem_of_here.
Qed.

Lemma one_error_toast_or_playback_witness :
  let w := mkWorld None false (λ _, None) (mkBlob [Byte.x01] "audio/webm")
             (λ _, inr (Some "beach photos from July"))
             (λ _, inr (mkHttpResponse 500 (inl NotAnError)))
             (λ _, None) None false in
  let st := mkAppState true false "" (JsString "") [] 0 None
              (Some (mkMediaRecorder "audio/mp3")) [] in
  (length (filter (λ ev, isErrorToast ev = true)
             (trace (run (stopListening w) st))) ≤ 1)%nat.
Proof.
  intros w st.
  apply (one_error_toast_or_playback w st); [by eexists | reflexivity].
Defined.

(** ** Failed stages *)

(** A transcription request in the trace comes from a live session and
    carries the recording of that session. *)
Lemma stopListening_transcribe (w : World) (st : AppState) (audio : Blob) :
  Transcribe audio ∈ trace (run (stopListening w) st) →
  ∃ rec, mediaRecorderRef st = Some rec ∧ isListening st = true
    ∧ audio = recording w rec st.
Proof.
  intros Hin.
  destruct (stopListening_run w st) as [_ [(_ & _ & Htr) | (rec & Hrec & Hlive & _)]].
  { rewrite Htr in Hin. by apply elem_of_nil in Hin. }
  exists rec. split; [done |]. split; [done |].
  destruct (stopListening_events w st rec Hrec Hlive)
    as [(_ & Htr)
       | [(_ & _ & msg & Htr)
         | (text & _ & _ & _ & _ & [(msg & Htr) | (story & rest & Htr & Hrest)])]];
    cbv zeta in Htr; rewrite Htr in Hin.
  - absurd_in_list Hin.
  - do 2 (apply elem_of_cons in Hin as [Hin | Hin]; [discriminate Hin |]).
    apply elem_of_cons in Hin as [Hin | Hin]; [by injection Hin |].
    absurd_in_list Hin.
  - do 2 (apply elem_of_cons in Hin as [Hin | Hin]; [discriminate Hin |]).
    apply elem_of_cons in Hin as [Hin | Hin]; [by injection Hin |].
    absurd_in_list Hin.
  - do 2 (apply elem_of_cons in Hin as [Hin | Hin]; [discriminate Hin |]).
    apply elem_of_cons in Hin as [Hin | Hin]; [by injection Hin |].
    do 2 (apply elem_of_cons in Hin as [Hin | Hin]; [discriminate Hin |]).
    apply elem_of_app in Hin as [Hin | Hin]; [| absurd_in_list Hin].
    rewrite Forall_forall in Hrest. by destruct (Hrest _ Hin).
Qed.

(** C6. A failed stage is the last one of the run.  When the answer to
    the transcription request the run made is a failure (the call
    rejects, or the text is missing or empty), no request is sent to the
    backend and no playback starts; when the answer to the query the run
    sent is a failure (the request rejects, the status is not 2xx, the
    body does not parse or is not accepted), no playback starts; in both
    cases the narrative, the images, the cursor and the image-error
    message are as before. *)
Theorem failed_stage_stops_pipeline (w : World) (st : AppState) :
  let r := run (stopListening w) st in
  (∀ audio, Transcribe audio ∈ trace r →
     transcriptionFails (transcribe w audio) = true →
     Forall (λ ev, isFetch ev = false ∧ isPlayback ev = false) (trace r)
     ∧ shown (ui r) = shown st)
  ∧ (∀ q, Fetch q ∈ trace r →
       queryFails (fetchApi w q) = true →
       Forall (λ ev, isPlayback ev = false) (trace r)
       ∧ shown (ui r) = shown st).
Proof.
  intros r. split.
  - intros audio Hin Hfail.
    destruct (stopListening_transcribe w st audio Hin)
      as (rec & Hrec & Hlive & ->).
    destruct (stopListening_run w st) as [_ Hrun]. fold r in Hrun.
    destruct Hrun as
      [(_ & _ & Htr)
      | (rec' & Hrec' & _ & [(_ & _ & Htr)
                            | [(_ & _ & Hui & msg & Htr)
                              | (text & _ & Htext & Hne & _)]])].
    + fold r in Hin. rewrite Htr in Hin. by apply elem_of_nil in Hin.
    + fold r in Hin. rewrite Htr in Hin. absurd_in_list Hin.
    + rewrite Hui, Htr, shown_after_capture.
      split; [repeat constructor | done].
    + rewrite Hrec in Hrec'. injection Hrec' as <-.
      cbv zeta in Htext. rewrite Htext in Hfail. cbn in Hfail.
      by apply String.eqb_eq in Hfail.
  - intros q Hin Hfail.
    destruct (stopListening_fetch w st q Hin)
      as (rec & Hrec & Hlive & Htext & Hne & Hui & Htr).
    fold r in Hui, Htr. cbv zeta in Hui, Htr.
    destruct (submitQuery_run w q (with_transcript q (atStop w st))
                [RecorderStop; TrackStop; Transcribe (recording w rec st)])
      as [(_ & [e He] & Hq & Hqtr) | (resp & story & items & _ & Hacc & _)];
      [| by rewrite Hfail in Hacc].
    cbv zeta in He, Hq, Hqtr.
    rewrite Hui, Htr, He, Hq, Hqtr, shown_before_query.
    split; [repeat constructor | done].
Qed.

Lemma failed_stage_stops_pipeline_witness :
  let st := mkAppState true false "" (JsString "") [] 0 None
              (Some (mkMediaRecorder "audio/webm;codecs=opus")) [] in
  let accepted := mkHttpResponse 200
                    (inr (BodyFields (JsString "story") (JsArray []))) in
  let silent := mkWorld None false (λ _, None) (mkBlob [Byte.x01] "audio/webm")
                  (λ b, if (blob_size b =? 1)%nat then inr (Some "")
                        else inr (Some "guess"))
                  (λ _, inr accepted) (λ _, None) None true in
  let down := mkWorld None false (λ _, None) (mkBlob [Byte.x01] "audio/webm")
                (λ _, inr (Some "beach photos from July"))
                (λ q, if String.eqb q "beach photos from July"
                      then inr (mkHttpResponse 500 (inl NotAnError))
                      else inr accepted)
                (λ _, None) None true in
  Transcribe (mkBlob [Byte.x01] "audio/webm;codecs=opus")
    ∈ trace (run (stopListening silent) st)
  ∧ Forall (λ ev, isFetch ev = false ∧ isPlayback ev = false)
      (trace (run (stopListening silent) st))
  ∧ Fetch "beach photos from July" ∈ trace (run (stopListening down) st)
  ∧ Forall (λ ev, isPlayback ev = false) (trace (run (stopListening down) st)).
Proof.
  intros st accepted silent down.
  assert (Transcribe (mkBlob [Byte.x01] "audio/webm;codecs=opus")
            ∈ trace (run (stopListening silent) st)) as Hsilent
    by (vm_compute; do 2 right; left).
  assert (Fetch "beach photos from July"
            ∈ trace (run (stopListening down) st)) as Hdown
    by (vm_compute; do 3 right; left).
  destruct (failed_stage_stops_pipeline silent st) as [Htranscribe _].
  destruct (failed_stage_stops_pipeline down st) as [_ Hquery].
  split; [exact Hsilent |].
  split; [exact (proj1 (Htranscribe _ Hsilent eq_refl)) |].
  split; [exact Hdown |].
  exact (proj1 (Hquery _ Hdown eq_refl)).
Defined.

(** A response whose status is not 2xx makes the query stage throw the
    error that names the status. *)
Lemma submitQuery_http_error (w : World) (text : string) (st : AppState)
    (tr : list Event) (resp : HttpResponse) :
  fetchApi w text = inr resp → ok resp = false →
  submitQuery w text st tr
  = mkRun (Threw (ErrorOf ("HTTP error! status: " +:+ pretty (status resp))))
      st (tr ++ [Fetch text]).
Proof.
  intros Hfetch Hok. unfold submitQuery.
  cbv [awaitValue update emit throw mbind M_bind bind mret M_ret ret].
  rewrite Hfetch. reduce_run. rewrite Hok. reduce_run. done.
Qed.

(** X19. A response of the backend with a status outside 200-299 is
    reported with that status: the run shows the error toast "HTTP error!
    status: " followed by the status in decimal, reads no body, starts no
    playback and leaves narrative, images and cursor as they were. *)
Theorem http_error_names_status (w : World) (st : AppState) (q : string)
    (resp : HttpResponse) :
  let r := run (stopListening w) st in
  Fetch q ∈ trace r → fetchApi w q = inr resp → ok resp = false →
  Toast StatusError "Error" ("HTTP error! status: " +:+ pretty (status resp))
    ∈ trace r
  ∧ Forall (λ ev, isPlayback ev = false) (trace r)
  ∧ shown (ui r) = shown st.
Proof.
  intros r Hq Hfetch Hok.
  destruct (stopListening_fetch w st q Hq)
    as (rec & Hrec & Hlive & Htext & Hne & Hui & Htr).
  fold r in Hui, Htr. cbv zeta in Hui, Htr.
  rewrite (submitQuery_http_error w q _ _ resp Hfetch Hok) in Hui, Htr.
  reduce_run. rewrite Hui, Htr, shown_before_query.
  split; [in_list |]. split; [repeat constructor | done].
Qed.

Lemma http_error_names_status_witness :
  let w := mkWorld None false (λ _, None) (mkBlob [Byte.x01] "audio/webm")
             (λ _, inr (Some "beach photos from July"))
             (λ _, inr (mkHttpResponse 500 (inl NotAnError)))
             (λ _, None) None false in
  let st := mkAppState true false "" (JsString "") [] 0 None
              (Some (mkMediaRecorder "audio/mp3")) [] in
  Toast StatusError "Error" "HTTP error! status: 500"
    ∈ trace (run (stopListening w) st).
Proof.
  intros w st.
  apply (http_error_names_status w st "beach photos from July"
           (mkHttpResponse 500 (inl NotAnError)));
    [vm_compute; do 3 right; left | reflexivity | reflexivity].
Defined.

(** ** Reachable states *)

Lemma clickNext_frame (st : AppState) :
  isProcessing (clickNext st) = isProcessing st
  ∧ isListening (clickNext st) = isListening st
  ∧ mediaRecorderRef (clickNext st) = mediaRecorderRef st.
Proof. unfold clickNext. by destruct (navEnabled st). Qed.

Lemma clickPrevious_frame (st : AppState) :
  isProcessing (clickPrevious st) = isProcessing st
  ∧ isListening (clickPrevious st) = isListening st
  ∧ mediaRecorderRef (clickPrevious st) = mediaRecorderRef st.
Proof. unfold clickPrevious. by destruct (navEnabled st). Qed.

(** The flags after [stopListening] on a live session. *)
Lemma stopListening_flags (w : World) (st : AppState) :
  is_Some (mediaRecorderRef st) → isListening st = true →
  let r := run (stopListening w) st in
  isListening (ui r) = false ∧ isProcessing (ui r) = false
  ∧ mediaRecorderRef (ui r) = mediaRecorderRef st.
Proof.
  intros [rec Hrec] Hlive r.
  assert (Hstop : isListening (atStop w st) = false
                  ∧ mediaRecorderRef (atStop w st) = mediaRecorderRef st).
  { unfold atStop. unfold_handler.
    by destruct (0 <? blob_size (flushed w))%nat. }
  destruct Hstop as [Hl Hm].
  destruct (stopListening_run w st) as [_ Hrun]. fold r in Hrun.
  destruct Hrun as
    [([Hnone | Hidle] & _)
    | (rec' & _ & _ & [(_ & Hui & _)
                      | [(_ & _ & Hui & _)
                        | (text & _ & _ & _ & Hui & _)]])];
    try congruence.
  1-2: rewrite Hui; cbn; by rewrite Hl, Hm.
  destruct (submitQuery_frame w text (with_transcript text (atStop w st))
              [RecorderStop; TrackStop; Transcribe (recording w rec' st)])
    as (Hql & _ & _ & Hqm & _).
  cbv zeta in *. rewrite Hui.
  cbn [isListening isProcessing mediaRecorderRef with_isProcessing].
  rewrite Hql, Hqm. cbn [isListening mediaRecorderRef with_transcript].
  by rewrite Hl, Hm.
Qed.

(** X20. Whenever the component is listening, a recorder exists.  The
    property holds on mount and every handler keeps it, from any state
    that has it; it also holds in the states in which a handler is
    suspended: after [startListening] has reset the state, after
    [stopListening] has switched the flags, and after it has stored the
    transcript.  Hence a click on the record button in a listening state
    that is not processing runs [stopListening] past its guard and ends
    with both flags off. *)
Theorem listening_has_recorder :
  let inv := λ st : AppState,
               isListening st = true → is_Some (mediaRecorderRef st) in
  inv initialState
  ∧ (∀ (a : Action) (st : AppState), inv st → inv (step a st))
  ∧ (∀ st : AppState, reachable st → inv st)
  ∧ (∀ (w : World) (st : AppState) (text : string),
       inv st →
       inv (with_isProcessing false
              (with_response (JsString "")
                 (with_transcript "" (with_chunksRef [] st))))
       ∧ inv (atStop w st)
       ∧ inv (with_transcript text (atStop w st)))
  ∧ (∀ (w : World) (st : AppState),
       inv st → isListening st = true → isProcessing st = false →
       isListening (step (ClickRecord w) st) = false
       ∧ isProcessing (step (ClickRecord w) st) = false).
Proof.
  intros inv.
  assert (Hstep : ∀ (a : Action) (st : AppState), inv st → inv (step a st)).
  { intros a st Hinv. unfold inv in *.
    destruct a as [w | | | | e |]; cbn [step].
    - unfold run, clickRecord. cbv [mbind M_bind bind get mret M_ret ret].
      destruct (isProcessing st); [done |].
      destruct (isListening st) eqn:Hlive.
      + destruct (stopListening_flags w st (Hinv eq_refl) Hlive) as (Hl & _).
        fold (run (stopListening w) st). rewrite Hl. discriminate.
      + fold (run (startListening w) st).
        destruct (startListening_run w st) as [(_ & _ & ->) | (_ & ->)];
          reduce_run; cbn; [by eauto |].
        rewrite Hlive. discriminate.
    - destruct (clickPrevious_frame st) as (_ & -> & ->). done.
    - destruct (clickNext_frame st) as (_ & -> & ->). done.
    - unfold_handler. by destruct (currentImage st).
    - destruct (isListening st) eqn:Hlive; [| by rewrite Hlive].
      rewrite ondataavailable_state. cbn. by rewrite Hlive.
    - destruct (isListening st) eqn:Hlive; [| by rewrite Hlive].
      cbn. by rewrite Hlive. }
  split; [discriminate |]. split; [exact Hstep |].
  split; [induction 1 as [| a st _ IH]; [discriminate | by apply Hstep] |].
  split.
  - intros w st text Hinv. split; [exact Hinv |].
    unfold inv. cbn [isListening with_transcript].
    rewrite isListening_atStop. split; discriminate.
  - intros w st Hinv Hlive Hidle. cbn [step].
    unfold run, clickRecord. cbv [mbind M_bind bind get mret M_ret ret].
    rewrite Hidle, Hlive.
    destruct (stopListening_flags w st (Hinv Hlive) Hlive) as (Hl & Hp & _).
    fold (run (stopListening w) st). by split.
Qed.

Lemma listening_has_recorder_witness :
  let w := mkWorld None false (λ _, None) (mkBlob [Byte.x01] "audio/webm")
             (λ _, inr (Some "beach photos from July"))
             (λ _, inr (mkHttpResponse 500 (inl NotAnError)))
             (λ _, None) None false in
  let st := step (ClickRecord w) initialState in
  isListening st = true
  ∧ is_Some (mediaRecorderRef st)
  ∧ isListening (step (ClickRecord w) st) = false.
Proof.
  intros w st.
  destruct listening_has_recorder as (_ & _ & Hreach & _ & Hclick).
  assert (reachable st) as Hst by apply reachable_step, reachable_init.
  split; [reflexivity |].
  split; [exact (Hreach st Hst eq_refl) |].
  exact (proj1 (Hclick w st (Hreach st Hst) eq_refl eq_refl)).
Defined.

(** ** Recorder errors *)

(** X21. The handler that [startListening] installs for recorder errors
    calls the [stopListening] of the first render, whose captured
    [isListening] is [false]: whatever the state, the recording is not
    stopped, no track is released and the state is unchanged; the error
    toast is all that happens.  With the captured value equal to the
    current one that closure is [stopListening] itself. *)
Theorem recorder_error_keeps_recording :
  (∀ (w : World) (st : AppState) (tr : list Event),
     stopListeningOf (isListening st) w st tr = stopListening w st tr)
  ∧ (∀ (w : World) (st : AppState),
       let r := run (recorderErrorHandler w) st in
       result r = Returned tt
       ∧ ui r = st
       ∧ trace r = [Toast StatusError "Recording Error"
                      "There was an error while recording. Please try again."]
       ∧ r = run onRecorderError st).
Proof.
  split.
  - intros w st tr. unfold stopListeningOf, stopListening.
    cbv [mbind M_bind bind get]. reflexivity.
  - intros w st. unfold recorderErrorHandler, stopListeningOf, onRecorderError.
    unfold_handler. by destruct (mediaRecorderRef st).
Qed.

(** ** Speech playback, continued *)

(** X22. [speakResponse] never throws and never touches the state.  When
    synthesis and playback succeed it makes the synthesis call and plays
    the audio, with no toast; when either fails it shows the warning
    toast, and it speaks the same text through the browser's synthesizer
    exactly when the browser has one. *)
Theorem speakResponse_fallback (w : World) (text : JsValue) (st : AppState) :
  let r := speakResponse w text st [] in
  let failed := speechCreate w text ≠ None ∨ audioPlay w ≠ None in
  result r = Returned tt
  ∧ ui r = st
  ∧ (¬ failed → trace r = [SpeechCreate text; AudioPlay])
  ∧ (failed →
       Toast StatusWarning "Speech Error"
         "Failed to generate speech. Playing in fallback voice." ∈ trace r
       ∧ (SpeechSynthesisSpeak text ∈ trace r ↔ hasSpeechSynthesis w = true)).
Proof.
  intros r failed. subst failed.
  destruct (speakResponse_run w text st []) as (Hres & Hui & Htr).
  fold r in Hres, Hui, Htr. cbn [app] in Htr.
  split; [done |]. split; [done |]. rewrite Htr. unfold fallbackEvents.
  destruct (speechCreate w text) as [e |], (audioPlay w) as [e' |];
    (split; [intros Hnot; try (exfalso; apply Hnot; by (left + right)); done |]);
    intros Hfail;
    try (destruct Hfail as [Hfail | Hfail]; contradiction);
    (split; [in_list |]);
    destruct (hasSpeechSynthesis w);
    (split; [intros Hin; try done; absurd_in_list Hin | intros Hs; try done; in_list]).
Qed.

Lemma speakResponse_fallback_witness :
  let w := mkWorld None false (λ _, None) (mkBlob [] "") (λ _, inr None)
             (λ _, inl NotAnError) (λ _, None)
             (Some (ErrorOf "NotAllowedError")) true in
  SpeechSynthesisSpeak (JsString "story")
    ∈ trace (speakResponse w (JsString "story") initialState []).
Proof.
  intros w.
  destruct (speakResponse_fallback w (JsString "story") initialState)
    as (_ & _ & _ & Hfail).
  destruct Hfail as [_ Hspeak]; [right; discriminate |].
  by apply Hspeak.
Defined.

(** X23. A second Stop is ignored: after any run of [stopListening] the
    session is no longer live, so running it again, whatever the
    collaborators would answer, changes nothing and makes no call. *)
Theorem stopListening_twice (w w' : World) (st : AppState) :
  let st1 := ui (run (stopListening w) st) in
  run (stopListening w') st1 = mkRun (Returned tt) st1 [].
Proof.
  intros st1.
  assert (Hidle : mediaRecorderRef st1 = None ∨ isListening st1 = false).
  { unfold st1.
    destruct (stopListening_run w st) as [_ [(Hidle & -> & _) | (rec & Hrec & Hlive & _)]];
      [done |].
    right. apply stopListening_flags; [by eexists | done]. }
  destruct (stopListening_run w' st1) as [Hres [(_ & Hui & Htr) | (rec & Hrec & Hlive & _)]].
  - destruct (run (stopListening w') st1) as [res s t]. cbn in *. congruence.
  - destruct Hidle; congruence.
Qed.

(** ** A whole session *)

(** The run of [stopListening] on a live session whose recording is
    transcribed and whose query is accepted. *)
Lemma stopListening_accepted (w : World) (st : AppState) (rec : MediaRecorder)
    (text : string) (resp : HttpResponse) (story : JsValue)
    (items : list ImageMetadata) :
  mediaRecorderRef st = Some rec → isListening st = true →
  blob_size (recording w rec st) ≠ 0%nat →
  transcribe w (recording w rec st) = inr (Some text) → text ≠ "" →
  fetchApi w text = inr resp → ok resp = true →
  json resp = inr (BodyFields story (JsArray items)) → truthy story = true →
  let r := run (stopListening w) st in
  ui r = with_isProcessing false
           (with_imageLoadError None
              (with_currentImageIndex 0
                 (with_images items
                    (with_response story (with_transcript text (atStop w st))))))
  ∧ trace r
    = [RecorderStop; TrackStop; Transcribe (recording w rec st); Fetch text;
       SpeechCreate story]
      ++ match speechCreate w story with
         | Some _ => fallbackEvents w story
         | None => AudioPlay ::
             match audioPlay w with
             | Some _ => fallbackEvents w story
             | None => []
             end
         end
      ++ [TrackStop].
Proof.
  intros Hrec Hlive Hsize Htext Hne Hfetch Hok Hjson Hstory r.
  destruct (stopListening_run w st) as [_ Hrun]. fold r in Hrun.
  destruct Hrun as
    [([Hnone | Hidle] & _)
    | (rec' & Hrec' & _ & [(Hempty & _)
                          | [(_ & Hfail & _)
                            | (text' & _ & Htext' & _ & Hui & Htr)]])];
    try congruence; simplify_eq.
  { rewrite Htext in Hfail. simpl in Hfail.
    by apply String.eqb_eq in Hfail. }
  rewrite Htext in Htext'. injection Htext' as Ht. subst text'.
  destruct (submitQuery_run w text (with_transcript text (atStop w st))
              [RecorderStop; TrackStop; Transcribe (recording w rec st)])
    as [(Hfail & _)
       | (resp' & story' & items' & Hfetch' & _ & Hjson' & Hq & Hqui & Hqtr)].
  { unfold queryFails in Hfail. rewrite Hfetch, Hok, Hjson in Hfail.
    simpl in Hfail. by rewrite Hstory in Hfail. }
  rewrite Hfetch in Hfetch'. injection Hfetch' as Hresp. subst resp'.
  rewrite Hjson in Hjson'. injection Hjson' as Hs Hi. subst story' items'.
  destruct (speakResponse_run w story (with_transcript text (atStop w st))
              [RecorderStop; TrackStop; Transcribe (recording w rec st); Fetch text])
    as (_ & _ & Hspeak).
  reduce_run.
  rewrite Hqtr, Hq, Hspeak in Htr. rewrite Hqui in Hui.
  split; [done |]. rewrite Htr. cbn [app]. by rewrite <- ?app_assoc.
Qed.

(** X24. A whole session.  After a Start that acquires the microphone, the
    chunks the recorder delivers and a Stop whose three remote calls
    succeed, the audio sent for transcription is the concatenation of the
    chunks and of the data delivered on stop under the MIME type chosen at
    Start; the page holds the transcript, the narrative and the images
    with the cursor at 0 and no image error; the network calls are the
    transcription, the query with the transcript and the synthesis of the
    narrative, in this order; the audio is played and no toast is
    shown. *)
Theorem session_end_to_end (w0 w : World) (st : AppState) (es : list Blob)
    (text : string) (resp : HttpResponse) (story : JsValue)
    (items : list ImageMetadata) :
  let audio := mkBlob (mjoin (blob_bytes <$> es) ++ blob_bytes (flushed w))
                 (chosenMime w0) in
  getUserMedia w0 = None → newMediaRecorder w0 (chosenMime w0) = None →
  blob_bytes audio ≠ [] →
  transcribe w audio = inr (Some text) → text ≠ "" →
  fetchApi w text = inr resp → ok resp = true →
  json resp = inr (BodyFields story (JsArray items)) → truthy story = true →
  speechCreate w story = None → audioPlay w = None →
  let r := run (stopListening w) (deliver es (ui (run (startListening w0) st))) in
  transcript (ui r) = text
  ∧ response (ui r) = story
  ∧ images (ui r) = items
  ∧ currentImageIndex (ui r) = 0%Z
  ∧ imageLoadError (ui r) = None
  ∧ isListening (ui r) = false
  ∧ isProcessing (ui r) = false
  ∧ filter (λ ev, isNetworkCall ev = true) (trace r)
    = [Transcribe audio; Fetch text; SpeechCreate story]
  ∧ AudioPlay ∈ trace r
  ∧ Forall (λ ev, isErrorToast ev = false ∧ isWarningToast ev = false) (trace r).
Proof.
  intros audio Hmic Hrecorder Hbytes Htext Hne Hfetch Hok Hjson Hstory
    Hcreate Hplay r.
  set (rec := mkMediaRecorder (chosenMime w0)).
  set (st2 := deliver es (ui (run (startListening w0) st))) in *.
  assert (Hst2 : mediaRecorderRef st2 = Some rec ∧ isListening st2 = true
                 ∧ chunksRef st2
                   = filter (λ e, (0 <? blob_size e)%nat = true) es).
  { unfold st2. rewrite deliver_state.
    destruct (startListening_run w0 st) as [(_ & _ & ->) | ([Hno | Hno] & _)];
      [| contradiction | contradiction].
    done. }
  destruct Hst2 as (Hrec & Hlive & Hchunks).
  assert (Haudio : recording w rec st2 = audio).
  { unfold audio. rewrite <- bytes_nonempty_chunks, <- Hchunks.
    rewrite <- (recording_bytes w rec st2).
    unfold recording, newBlob, rec, chosenMime. cbn [mimeType blob_bytes].
    by destruct (mp3Supported w0); vm_compute. }
  assert (Hsize : blob_size (recording w rec st2) ≠ 0%nat).
  { rewrite Haudio. unfold blob_size.
    destruct (blob_bytes audio); [done | discriminate]. }
  rewrite <- Haudio in Htext.
  destruct (stopListening_accepted w st2 rec text resp story items
              Hrec Hlive Hsize Htext Hne Hfetch Hok Hjson Hstory)
    as [Hui Htr].
  fold r in Hui, Htr. rewrite Hcreate, Hplay, Haudio in Htr.
  rewrite Hui, Htr.
  cbn [transcript response images currentImageIndex imageLoadError
       isListening isProcessing
       with_isProcessing with_imageLoadError with_currentImageIndex
       with_images with_response with_transcript app].
  rewrite isListening_atStop.
  repeat (split; [done |]).
  split; [in_list |]. repeat (constructor; [by split |]). constructor.
Qed.

Lemma session_end_to_end_witness :
  let w := mkWorld None true (λ _, None) (mkBlob [Byte.x03] "audio/mp3")
             (λ _, inr (Some "beach photos from July"))
             (λ _, inr (mkHttpResponse 200
                (inr (BodyFields (JsString "Here are your beach memories")
                        (JsArray [photo 1 "IMG1.jpg"; photo 2 "IMG2.jpg"])))))
             (λ _, None) None true in
  let es := [mkBlob [Byte.x01] "audio/mp3"; mkBlob [] "audio/mp3";
             mkBlob [Byte.x02] "audio/mp3"] in
  let r := run (stopListening w)
             (deliver es (ui (run (startListening w) initialState))) in
  images (ui r) = [photo 1 "IMG1.jpg"; photo 2 "IMG2.jpg"]
  ∧ filter (λ ev, isNetworkCall ev = true) (trace r)
    = [Transcribe (mkBlob [Byte.x01; Byte.x02; Byte.x03] "audio/mp3");
       Fetch "beach photos from July";
       SpeechCreate (JsString "Here are your beach memories")].
Proof.
  intros w es r.
  destruct (session_end_to_end w w initialState es "beach photos from July"
              (mkHttpResponse 200
                 (inr (BodyFields (JsString "Here are your beach memories")
                         (JsArray [photo 1 "IMG1.jpg"; photo 2 "IMG2.jpg"]))))
              (JsString "Here are your beach memories")
              [photo 1 "IMG1.jpg"; photo 2 "IMG2.jpg"])
    as (_ & _ & Himgs & _ & _ & _ & _ & Htr & _);
    try reflexivity; try discriminate.
  split; [exact Himgs | exact Htr].
Defined.

(** ** The API test panel *)

Module TestApiFacts.
Import TestApi.

(** X25. [testFetch] never throws and always ends with the loading flag
    off.  It ends either with an empty error and the message of a body
    that one of the requests returned, or with the error "Both direct and
    proxy requests failed" and the message it started with; the message
    of the first failure is never what remains in the error cell. *)
Theorem testFetch_outcome (w : TestApi.World) (st : State) :
  let r := TestApi.run w st in
  TestApi.result r = Returned tt
  ∧ isLoading (TestApi.ui r) = false
  ∧ ((error (TestApi.ui r) = ""
      ∧ ∃ resp, TestApi.json resp = inr (BodyMessage (message (TestApi.ui r)))
          ∧ (direct w = inr resp ∨ ∃ k, proxy w k = inr resp))
     ∨ (error (TestApi.ui r) = "Both direct and proxy requests failed"
        ∧ message (TestApi.ui r) = message st)).
Proof.
  unfold_testFetch. split_answers;
    (split; [done |]); (split; [done |]);
    first [by right | left; split; [done |]; eauto 6].
Qed.

(** X26. The requests of [testFetch]: the direct request comes first and
    is the only one exactly when it answers with a readable response
    whose body carries a message; otherwise the proxy is asked, once or,
    when an opaque direct answer was followed by a failed proxy attempt,
    a second time; there is never a fourth request. *)
Theorem testFetch_requests (w : TestApi.World) (st : State) :
  let r := TestApi.run w st in
  (TestApi.trace r = [Direct]
   ∨ TestApi.trace r = [Direct; Proxy]
   ∨ TestApi.trace r = [Direct; Proxy; Proxy])
  ∧ (TestApi.trace r = [Direct]
     ↔ ∃ resp m, direct w = inr resp ∧ opaque resp = false
         ∧ TestApi.json resp = inr (BodyMessage m))
  ∧ (TestApi.trace r = [Direct; Proxy; Proxy]
     → ∃ resp, direct w = inr resp ∧ opaque resp = true
         ∧ ∀ m, (∃ first, proxy w 0%nat = inr first
                   ∧ TestApi.json first = inr (BodyMessage m)) → False).
Proof.
  unfold_testFetch. split_answers;
    (split; [by eauto |]);
    (split; [split; [try discriminate; by eauto 6
                    | intros (? & ? & ? & ? & ?); congruence] |]);
    try discriminate;
    intros _; eexists; (split; [done |]); (split; [done |]);
    intros m (first & ? & ?); congruence.
Qed.
Lemma testFetch_requests_witness :
  let blocked := mkResponse true (inl NotAnError) in
  let hello := mkResponse false (inr (BodyMessage (JsString "hello"))) in
  let w := TestApi.mkWorld (inr blocked)
             (λ k, match k with
                   | O => inl (ErrorOf "Failed to fetch")
                   | _ => inr hello
                   end) in
  TestApi.trace (TestApi.run w initial) = [Direct; Proxy; Proxy]
  ∧ ∃ resp, direct w = inr resp ∧ opaque resp = true.
Proof.
  intros blocked hello w.
  assert (TestApi.trace (TestApi.run w initial) = [Direct; Proxy; Proxy])
    as Htrace by reflexivity.
  split; [exact Htrace |].
  destruct (testFetch_requests w initial) as (_ & _ & Hthree).
  destruct (Hthree Htrace) as (resp & Hdirect & Hopaque & _).
  by exists resp.
Defined.

End TestApiFacts.
